(** * libbitcoin-network: a shallow embedding of the peer-to-peer core

    The development follows the layout of the sources: the supervisor
    ([p2p]), the settings filters, the connector, the outbound batch, the
    manual session, the message distributor, the peer channel's send path
    and the bip31 ping protocol.  Stateful code is written as explicit state
    passing; calls into collaborators (completion handlers, the socket, the
    channel) are recorded in an ordered effect log. *)

From Stdlib Require Import ZArith List Bool Lia.
From stdpp Require Import base gmap.
Import ListNotations.

Local Open Scope Z_scope.

(** ** Error codes ([error::...]) *)

Inductive code : Type :=
  | success
  | unknown_message
  | invalid_message
  | invalid_magic
  | bad_alloc
  | bad_stream
  | protocol_violation
  | resolve_failed
  | connect_failed
  | accept_failed
  | address_blocked
  | address_in_use
  | channel_overflow
  | channel_timeout
  | channel_stopped
  | service_stopped
  | operation_canceled
  | operation_failed.

Definition code_eqb (a b : code) : bool :=
  match a, b with
  | success, success | unknown_message, unknown_message
  | invalid_message, invalid_message | invalid_magic, invalid_magic
  | bad_alloc, bad_alloc | bad_stream, bad_stream
  | protocol_violation, protocol_violation
  | resolve_failed, resolve_failed | connect_failed, connect_failed
  | accept_failed, accept_failed | address_blocked, address_blocked
  | address_in_use, address_in_use | channel_overflow, channel_overflow
  | channel_timeout, channel_timeout | channel_stopped, channel_stopped
  | service_stopped, service_stopped
  | operation_canceled, operation_canceled
  | operation_failed, operation_failed => true
  | _, _ => false
  end.

(** [if (ec)]: a code converts to true exactly when it is not [success]. *)
Definition to_bool_code (ec : code) : bool := negb (code_eqb ec success).

(** ** Machine integers: [size_t] and [uint64_t] are 64 bits wide *)

Definition size_max : Z := 2 ^ 64 - 1.
Definition wrap (x : Z) : Z := x mod 2 ^ 64.
Definition add1 (x : Z) : Z := wrap (x + 1).
Definition sub1 (x : Z) : Z := wrap (x - 1).
Definition is_zero (x : Z) : bool := x =? 0.
Definition in_size (x : Z) : Prop := 0 <= x <= size_max.

(** ** The supervisor: loopback nonces and channel counting (p2p.cpp) *)

Module P2P.

(** An authority is the (ip, port) identity of a remote endpoint. *)
Definition authority : Type := (Z * Z)%type.

(** The part of a channel the supervisor reads. *)
Record channel : Type := Channel {
  inbound : bool;
  quiet : bool;
  nonce : Z;            (* channel.nonce() *)
  peer_nonce : Z;       (* channel.peer_version()->nonce *)
  channel_authority : authority
}.

(** Modelled from the spec: the host pool's [reserve] and [unreserve] (the
    hosts class is not part of the sources read here).  The pool keeps the set
    of authorities that mark an active connection; [reserve] answers whether
    the authority was newly reserved, a duplicate is refused. *)
Definition hosts_reserve (a : authority) (h : gset authority)
  : bool * gset authority :=
  if decide (a ∈ h) then (false, h) else (true, {[a]} ∪ h).

(** Modelled from the spec: [hosts::unreserve] clears the mark. *)
Definition hosts_unreserve (a : authority) (h : gset authority)
  : gset authority := h ∖ {[a]}.

Record p2p : Type := Supervisor {
  enable_loopback : bool;            (* settings_.enable_loopback *)
  closed_ : bool;
  nonces_ : gset Z;
  hosts_ : gset authority;
  inbound_channel_count_ : Z;
  total_channel_count_ : Z
}.

Definition set_nonces (n : gset Z) (s : p2p) : p2p :=
  Supervisor (enable_loopback s) (closed_ s) n (hosts_ s)
    (inbound_channel_count_ s) (total_channel_count_ s).

Definition set_hosts (h : gset authority) (s : p2p) : p2p :=
  Supervisor (enable_loopback s) (closed_ s) (nonces_ s) h
    (inbound_channel_count_ s) (total_channel_count_ s).

Definition set_counts (i t : Z) (s : p2p) : p2p :=
  Supervisor (enable_loopback s) (closed_ s) (nonces_ s) (hosts_ s) i t.

Definition closed (s : p2p) : bool := closed_ s.

(** [p2p::store_nonce] *)
Definition store_nonce (ch : channel) (s : p2p) : bool * p2p :=
  if enable_loopback s || inbound ch then (true, s)
  else if decide (nonce ch ∈ nonces_ s) then (false, s)
  else (true, set_nonces ({[nonce ch]} ∪ nonces_ s) s).

(** [p2p::unstore_nonce] *)
Definition unstore_nonce (ch : channel) (s : p2p) : bool * p2p :=
  if enable_loopback s || inbound ch then (true, s)
  else if decide (nonce ch ∈ nonces_ s)
       then (true, set_nonces (nonces_ s ∖ {[nonce ch]}) s)
       else (false, s).

(** [p2p::is_loopback] *)
Definition is_loopback (ch : channel) (s : p2p) : bool :=
  if enable_loopback s || negb (inbound ch) then false
  else bool_decide (peer_nonce ch ∈ nonces_ s).

(** [p2p::count_channel] *)
Definition count_channel (ch : channel) (s : p2p) : code * p2p :=
  if closed s then (service_stopped, s)
  else if is_loopback ch s then (accept_failed, s)
  else if inbound ch && is_zero (add1 (inbound_channel_count_ s))
  then (channel_overflow, s)
  else if negb (quiet ch) && is_zero (add1 (total_channel_count_ s))
  then (channel_overflow, s)
  else
    let (reserved, h) := hosts_reserve (channel_authority ch) (hosts_ s) in
    if negb reserved then (address_in_use, set_hosts h s)
    else
      let s1 := set_hosts h s in
      let i := if inbound ch then add1 (inbound_channel_count_ s1)
               else inbound_channel_count_ s1 in
      let t := if negb (quiet ch) then add1 (total_channel_count_ s1)
               else total_channel_count_ s1 in
      (success, set_counts i t s1).

(** [p2p::uncount_channel] *)
Definition uncount_channel (ch : channel) (s : p2p) : p2p :=
  let s1 := set_hosts (hosts_unreserve (channel_authority ch) (hosts_ s)) s in
  if inbound ch && is_zero (inbound_channel_count_ s1) then s1
  else if negb (quiet ch) && is_zero (total_channel_count_ s1) then s1
  else
    let i := if inbound ch then sub1 (inbound_channel_count_ s1)
             else inbound_channel_count_ s1 in
    let t := if negb (quiet ch) then sub1 (total_channel_count_ s1)
             else total_channel_count_ s1 in
    set_counts i t s1.

(** What the session does to a channel it registers. *)
Inductive registration : Type :=
  | channel_stop (ec : code).

(** Modelled from the spec: the session's channel registration (session.cpp
    is not among the sources).  "On channel registration, [count_channel]
    verifies ...; failure rejects the channel": the channel is stopped with
    the code [count_channel] returned, and a counted channel is left
    running. *)
Definition register_channel (ch : channel) (s : p2p)
  : p2p * list registration :=
  let (ec, s') := count_channel ch s in
  (s', if to_bool_code ec then [channel_stop ec] else []).

(** The four conditions: not closed, not a loopback, the inbound count not
    at its maximum, the authority not reserved. *)
Definition claimed_conditions (ch : channel) (s : p2p) : Prop :=
  closed s = false
  /\ is_loopback ch s = false
  /\ (inbound ch = true -> inbound_channel_count_ s <> size_max)
  /\ channel_authority ch ∉ hosts_ s.

(** All the checks of [count_channel]. *)
Definition admissible (ch : channel) (s : p2p) : Prop :=
  closed s = false
  /\ is_loopback ch s = false
  /\ (inbound ch = true -> inbound_channel_count_ s <> size_max)
  /\ (quiet ch = false -> total_channel_count_ s <> size_max)
  /\ channel_authority ch ∉ hosts_ s.

(** Both counters hold a [size_t] value. *)
Definition counters_ok (s : p2p) : Prop :=
  in_size (inbound_channel_count_ s) /\ in_size (total_channel_count_ s).

(** A history of registrations and deregistrations on the network strand. *)
Inductive op : Type :=
  | Count (ch : channel)
  | Uncount (ch : channel).

Definition apply_op (o : op) (s : p2p) : p2p :=
  match o with
  | Count ch => snd (count_channel ch s)
  | Uncount ch => uncount_channel ch s
  end.

Definition run_ops (ops : list op) (s : p2p) : p2p :=
  fold_left (fun acc o => apply_op o acc) ops s.

End P2P.

(** ** Address filters (settings.cpp) *)

Module Settings.

(** [messages::peer::address_item] *)
Record address_item : Type := AddressItem {
  timestamp : Z;
  services : Z;        (* uint64_t bit mask *)
  ip : Z;              (* 16 bytes *)
  port : Z
}.

(** [config::authority] as it is listed in blacklists, whitelists, friends. *)
Record authority : Type := Authority {
  authority_ip : Z;
  authority_port : Z;
  authority_cidr : Z
}.

(** The fields of [settings] read by the filters. *)
Record settings : Type := Config {
  enable_ipv6 : bool;
  services_minimum : Z;
  invalid_services : Z;
  blacklists : list authority;
  whitelists : list authority;
  friends : list authority
}.

(** [to_bool] of an integer. *)
Definition to_bool (x : Z) : bool := negb (x =? 0).

Section Filters.

  (** Helpers of the config and system libraries whose bodies are not among
      the sources: [is_specified], [config::is_v6] and the comparison
      [authority == address_item] used by [contains]. *)
Variable is_specified : address_item -> bool.
Variable is_v6 : Z -> bool.
Variable authority_equals : authority -> address_item -> bool.

  (** [whitelists.empty()] *)
Definition empty (l : list authority) : bool :=
    match l with [] => true | _ :: _ => false end.

  (** [system::contains(list, item)]: [std::find] reaches an element. *)
Definition contains (l : list authority) (item : address_item) : bool :=
    existsb (fun a => authority_equals a item) l.

(** The list holds an authority that compares equal to the item. *)
Definition listed (l : list authority) (item : address_item) : Prop :=
  exists a, In a l /\ authority_equals a item = true.

Definition disabled (s : settings) (item : address_item) : bool :=
    negb (enable_ipv6 s) && is_v6 (ip item).

Definition insufficient (s : settings) (item : address_item) : bool :=
    negb (Z.land (services item) (services_minimum s) =? services_minimum s).

Definition unsupported (s : settings) (item : address_item) : bool :=
    to_bool (Z.land (services item) (invalid_services s)).

Definition blacklisted (s : settings) (item : address_item) : bool :=
    contains (blacklists s) item.

Definition whitelisted (s : settings) (item : address_item) : bool :=
    empty (whitelists s) || contains (whitelists s) item.

Definition peered (s : settings) (item : address_item) : bool :=
    contains (friends s) item.

Definition excluded (s : settings) (item : address_item) : bool :=
    negb (is_specified item)
    || disabled s item
    || insufficient s item
    || unsupported s item
    || peered s item
    || blacklisted s item
    || negb (whitelisted s item).

End Filters.

End Settings.

(** ** Connector: resolve, connect and timeout racing on one strand
       (connector.cpp) *)

Module Connector.

(** [error::boost_code] as [handle_resolve] distinguishes it: no error, the
    cancellation [operation_aborted], or a failure, kept with the network
    code that [error::asio_to_error_code] maps it to. *)
Inductive boost_code : Type :=
  | boost_success
  | boost_operation_aborted
  | boost_failure (mapped : code).

Definition asio_is_cancelled (ec : boost_code) : bool :=
  match ec with boost_operation_aborted => true | _ => false end.

Definition boost_to_bool (ec : boost_code) : bool :=
  match ec with boost_success => false | _ => true end.

Definition asio_to_error_code (ec : boost_code) : code :=
  match ec with
  | boost_success => success
  | boost_operation_aborted => operation_canceled
  | boost_failure c => c
  end.

(** The asynchronous resolve: nothing outstanding, outstanding, or cancelled
    with its [operation_aborted] completion on the way to the strand. *)
Inductive resolve_state : Type :=
  | resolve_idle
  | resolve_pending
  | resolve_aborting.

Record connector : Type := Make {
  stopped_ : bool;
  resolver_ : resolve_state;
  timer_armed : bool;          (* timer_ has a handler waiting for expiry *)
  socket_connecting : bool     (* socket->connect is outstanding *)
}.

(** A call of the [connect_handler]: the code, and the created channel. *)
Inductive effect : Type :=
  | handler (ec : code) (created : bool).

(** Constructor: [stopped_(true)]. *)
Definition create : connector := Make true resolve_idle false false.

(** [resolver_.cancel()] of the asio resolver: an outstanding resolve
    completes with [operation_aborted]; as the call sites note, it "posts
    handle_resolve to strand (if not already posted)".  A completion that
    was posted before the cancel keeps its answer: see
    [resolved_before_cancel]. *)
Definition resolver_cancel (c : connector) : connector :=
  match resolver_ c with
  | resolve_pending =>
      Make (stopped_ c) resolve_aborting (timer_armed c) (socket_connecting c)
  | _ => c
  end.

(** Modelled from the spec: the deadline timer (its class is not among the
    sources).  [stop()] cancels the pending arm and expiry delivers
    [handler(success)]; as the call sites note, on stop the "timer handler
    does not invoke handle_timer". *)
Definition timer_stop (c : connector) : connector :=
  Make (stopped_ c) (resolver_ c) false (socket_connecting c).

Definition set_stopped (b : bool) (c : connector) : connector :=
  Make b (resolver_ c) (timer_armed c) (socket_connecting c).

(** [connector::stop] *)
Definition stop (c : connector) : connector :=
  if stopped_ c then c else timer_stop (resolver_cancel c).

(** [connector::connect]: clears [stopped_], starts the timer, then the
    asynchronous resolve. *)
Definition connect (c : connector) : connector :=
  Make false resolve_pending true (socket_connecting c).

(** [connector::handle_resolve] *)
Definition handle_resolve (ec : boost_code) (c : connector)
  : connector * list effect :=
  if asio_is_cancelled ec then (c, [handler channel_stopped false])
  else if boost_to_bool ec then (c, [handler (asio_to_error_code ec) false])
  else (Make (stopped_ c) (resolver_ c) (timer_armed c) true, []).

(** [connector::do_handle_connect], posted by [handle_connect]. *)
Definition do_handle_connect (ec : code) (c : connector)
  : connector * list effect :=
  if stopped_ c then (c, [])
  else
    let c1 := timer_stop (set_stopped true c) in
    if to_bool_code ec then (c1, [handler ec false])
    else (c1, [handler success true]).

(** [connector::handle_timer] *)
Definition handle_timer (ec : code) (c : connector)
  : connector * list effect :=
  if stopped_ c then (c, [])
  else
    let c1 := set_stopped true (resolver_cancel c) in
    if to_bool_code ec then (c1, [handler ec false])
    else (c1, [handler channel_timeout false]).

(** What reaches the strand after [connect]. *)
Inductive event : Type :=
  | resolved (ec : boost_code)   (* the resolver completes *)
  | connected (ec : code)        (* the socket connect completes *)
  | timer_expired                (* the deadline fires *)
  | stop_called                  (* connector::stop *)
  | resolved_before_cancel (ec : boost_code).
      (* the resolver had completed and posted handle_resolve already when
         cancel was called: handle_resolve runs with the answer *)

(** One task on the strand.  A completion with nothing outstanding does not
    occur; a cancelled resolve completes with [operation_aborted], unless its
    completion was posted before the cancel. *)
Definition step (e : event) (c : connector) : connector * list effect :=
  match e with
  | resolved ec =>
      let done := Make (stopped_ c) resolve_idle (timer_armed c)
                    (socket_connecting c) in
      match resolver_ c with
      | resolve_idle => (c, [])
      | resolve_pending => handle_resolve ec done
      | resolve_aborting => handle_resolve boost_operation_aborted done
      end
  | connected ec =>
      if socket_connecting c
      then do_handle_connect ec
             (Make (stopped_ c) (resolver_ c) (timer_armed c) false)
      else (c, [])
  | timer_expired =>
      if timer_armed c
      then handle_timer success
             (Make (stopped_ c) (resolver_ c) false (socket_connecting c))
      else (c, [])
  | stop_called => (stop c, [])
  | resolved_before_cancel ec =>
      let done := Make (stopped_ c) resolve_idle (timer_armed c)
                    (socket_connecting c) in
      match resolver_ c with
      | resolve_idle => (c, [])
      | resolve_pending | resolve_aborting => handle_resolve ec done
      end
  end.

Fixpoint run (es : list event) (c : connector) : connector * list effect :=
  match es with
  | [] => (c, [])
  | e :: es' =>
      let (c1, out1) := step e c in
      let (c2, out2) := run es' c1 in
      (c2, out1 ++ out2)
  end.

(** The handler invocations of one [connect] followed by the events [es]. *)
Definition invocations (es : list event) : list effect :=
  snd (run es (connect create)).

End Connector.

(** ** Outbound session: batch connect (session_outbound.cpp) *)

Module SessionOutbound.

Definition channel : Type := nat.
Definition connector_id : Type := nat.

Record session_outbound : Type := Session {
  batch_ : Z;      (* max(connect_batch_size, 1) *)
  count_ : Z
}.

Inductive effect : Type :=
  | connector_stop (c : connector_id)
  | complete (ec : code) (ch : option channel).

(** Constructor: [count_(zero)]. *)
Definition create (connect_batch_size : Z) : session_outbound :=
  Session (Z.max connect_batch_size 1) 0.

(** [session_outbound::handle_batch] *)
Definition handle_batch (ec : code) (ch : option channel)
    (connectors : list connector_id) (s : session_outbound)
  : session_outbound * list effect :=
  let count := add1 (count_ s) in
  let finish := count =? batch_ s in
  let s1 := Session (batch_ s) count in
  if negb (to_bool_code ec) then
    if negb finish
    then (Session (batch_ s) (batch_ s),
          map connector_stop connectors ++ [complete success ch])
    else (s1, [complete success ch])
  else if finish then (s1, [complete connect_failed None])
  else (s1, []).

(** The completions of the connectors of one batch, in strand order. *)
Fixpoint run_batch (completions : list (code * option channel))
    (connectors : list connector_id) (s : session_outbound)
  : session_outbound * list effect :=
  match completions with
  | [] => (s, [])
  | (ec, ch) :: rest =>
      let (s1, out1) := handle_batch ec ch connectors s in
      let (s2, out2) := run_batch rest connectors s1 in
      (s2, out1 ++ out2)
  end.

Definition is_complete_success (e : effect) : bool :=
  match e with
  | complete success _ => true
  | _ => false
  end.

End SessionOutbound.

(** ** Manual session: connect cycle with retry (session_manual.cpp) *)

Module SessionManual.

Definition channel : Type := nat.
Definition authority : Type := (Z * Z)%type.

(** The caller's [channel_handler], a
    [std::function<void(const code&, channel::ptr)>].  The session calls it
    in statement position, [handler(ec, channel);], so whatever the wrapped
    callable returns is dropped at the call; the log keeps it for reference
    only. *)
Definition channel_handler : Type := code -> option channel -> bool.

Inductive effect : Type :=
  | handler_called (ec : code) (ch : option channel) (returned : bool)
  | connector_connect (host : authority)
  | subscribe_stop
  | timer_start
  | start_channel (ch : channel)
  | channel_stop (ch : channel) (ec : code).

Definition invoke (h : channel_handler) (ec : code) (ch : option channel)
  : effect := handler_called ec ch (h ec ch).

(** [session_manual::start_connect]; [stopped] is [session::stopped()]. *)
Definition start_connect (stopped : bool) (host : authority)
    (h : channel_handler) : list effect :=
  if stopped then [invoke h service_stopped None]
  else [connector_connect host].

(** [session_manual::connect(const authority&, channel_handler)] *)
Definition connect (stopped : bool) (host : authority) (h : channel_handler)
  : list effect :=
  if stopped then [invoke h service_stopped None]
  else subscribe_stop :: start_connect stopped host h.

(** [session_manual::handle_connect] *)
Definition handle_connect (stopped : bool) (ec : code) (ch : option channel)
    (host : authority) (h : channel_handler) : list effect :=
  if code_eqb ec service_stopped then [invoke h ec None]
  else if to_bool_code ec then [timer_start]
  else if stopped then
    invoke h service_stopped None ::
    match ch with
    | Some c => [channel_stop c service_stopped]
    | None => []
    end
  else
    match ch with
    | Some c => [start_channel c]
    | None => []
    end.

(** [session_manual::handle_channel_start] *)
Definition handle_channel_start (ec : code) (ch : channel)
    (h : channel_handler) : list effect :=
  [invoke h ec (Some ch)].

(** [session_manual::handle_channel_stop] *)
Definition handle_channel_stop (stopped : bool) (host : authority)
    (h : channel_handler) : list effect :=
  start_connect stopped host h.

(** What the connector, the retry timer, the started channel and the
    supervisor deliver to the session's strand. *)
Inductive event : Type :=
  | connect_done (ec : code) (ch : option channel)
  | timer_fired
  | channel_started (ec : code) (ch : channel)
  | channel_stopped_with (ec : code)
  | session_stop.

Definition step (host : authority) (h : channel_handler) (e : event)
    (stopped : bool) : bool * list effect :=
  match e with
  | connect_done ec ch => (stopped, handle_connect stopped ec ch host h)
  | timer_fired => (stopped, start_connect stopped host h)
  | channel_started ec ch => (stopped, handle_channel_start ec ch h)
  | channel_stopped_with _ => (stopped, handle_channel_stop stopped host h)
  | session_stop => (true, [])
  end.

Fixpoint run (host : authority) (h : channel_handler) (es : list event)
    (stopped : bool) : list effect :=
  match es with
  | [] => []
  | e :: es' =>
      let (stopped', out) := step host h e stopped in
      out ++ run host h es' stopped'
  end.

(** [connect(host, handler)] on a running session, then the events. *)
Definition session (host : authority) (h : channel_handler)
    (es : list event) : list effect :=
  connect false host h ++ run host h es false.

(** The handler calls of a log, without what the handler returned. *)
Fixpoint handler_calls (log : list effect) : list (code * option channel) :=
  match log with
  | [] => []
  | handler_called ec ch _ :: rest => (ec, ch) :: handler_calls rest
  | _ :: rest => handler_calls rest
  end.

End SessionManual.

(** ** Distributor: message identifier to typed subscriber
       (pump.cpp, distributor_peer.hpp) *)

Module Distributor.

(** [messages::identifier], as [pump::notify] switches on it. *)
Inductive identifier : Type :=
  | address | alert | block | block_transactions | compact_block
  | compact_filter | compact_filter_checkpoint | compact_filter_headers
  | fee_filter | filter_add | filter_clear | filter_load | get_address
  | get_blocks | get_block_transactions | get_compact_filter_checkpoint
  | get_compact_filter_headers | get_compact_filters | get_data
  | get_headers | headers | inventory | memory_pool | merkle_block
  | not_found | ping | pong | reject | send_compact | send_headers
  | transaction | verack | version
  | unknown.

Section Notify.

  (** Deserialized messages and the codec ([messages::deserialize<Message>]
      at the message type selected by the identifier) are external. *)
Variable message : Type.
Variable deserialize : identifier -> Z -> list Z -> option message.

Definition handler : Type := code -> option message -> bool.

  (** Modelled from the spec: the subscriber class is not among the sources.
      It is an ordered collection of handlers; [notify(code, value)] fans out
      to all of them in insertion order. *)
Definition subscriber : Type := list handler.

Inductive effect : Type :=
    | deserialized (id : identifier) (version : Z) (data : list Z)
    | notified (ec : code) (m : option message) (returned : bool).

(** Modelled from the spec: [subscriber.empty()], no handler is held. *)
Definition subscriber_empty (sub : subscriber) : bool :=
    match sub with [] => true | _ :: _ => false end.

(** Modelled from the spec: [subscriber.notify(ec, message)], one call per
    handler, in insertion order. *)
Definition subscriber_notify (sub : subscriber) (ec : code)
      (m : option message) : list effect :=
    map (fun h : handler => notified ec m (h ec m)) sub.

  (** [do_notify<Message>(subscriber, version, data)] *)
Definition do_notify (id : identifier) (sub : subscriber) (version : Z)
      (data : list Z) : code * list effect :=
    if negb (subscriber_empty sub) then
      match deserialize id version data with
      | None => (invalid_message, [deserialized id version data])
      | Some m =>
          (success,
           deserialized id version data
             :: subscriber_notify sub success (Some m))
      end
    else (success, []).

  (** The subscriber members, one per identifier with a [CASE_NOTIFY]. *)
Definition subscribers : Type := identifier -> subscriber.

  (** [notify(id, version, data)]: every [CASE_NOTIFY(name)] returns
      [do_notify<messages::name>(name_subscriber_, version, data)]. *)
Definition notify (subs : subscribers) (id : identifier) (version : Z)
      (data : list Z) : code * list effect :=
    match id with
    | unknown => (unknown_message, [])
    | _ => do_notify id (subs id) version data
    end.

End Notify.

End Distributor.

(** ** Peer channel: the send path (channel_peer.hpp) *)

Module ChannelPeer.

Inductive effect : Type :=
  | socket_write (data : list Z)
  | stop (ec : code)
  | handler (ec : code).

(** [channel_peer::handle_send] *)
Definition handle_send (ec : code) : list effect :=
  (if to_bool_code ec then [stop ec] else []) ++ [handler ec].

Section Send.

Variable message : Type.
  (** [messages::peer::serialize(message, id, version)]; [None] is the null
      pointer. *)
Variable serialize : message -> Z -> Z -> option (list Z).

  (** [channel_peer::send]; [written] is the code the socket write, when it
      is issued, completes with. *)
Definition send (identifier negotiated_version : Z) (m : message)
      (written : code) : list effect :=
    match serialize m identifier negotiated_version with
    | None => handle_send bad_alloc
    | Some data => socket_write data :: handle_send written
    end.

End Send.

Definition is_write (e : effect) : bool :=
  match e with socket_write _ => true | _ => false end.

End ChannelPeer.

(** ** Ping protocol, bip31 and later (protocol_ping_60001.cpp) *)

Module Ping60001.

Definition received : Z := 0.
Definition minimum_nonce : Z := add1 received.

Record protocol : Type := Protocol {
  nonce_ : Z;
  channel_stopped_ : bool     (* the channel's stopped state *)
}.

Inductive effect : Type :=
  | stop (ec : code)          (* protocol::stop: stop the channel *)
  | send_ping_message (nonce : Z).

(** Constructor: [nonce_(received)]. *)
Definition create : protocol := Protocol received false.

Definition stopped (p : protocol) : bool := channel_stopped_ p.

Definition do_stop (ec : code) (p : protocol) : protocol * list effect :=
  (Protocol (nonce_ p) true, [stop ec]).

(** [protocol_ping_60001::send_ping]; [random] is the value drawn by
    [pseudo_random::next(add1(minimum_nonce), max_int64)]. *)
Definition send_ping (random : Z) (p : protocol) : protocol * list effect :=
  if stopped p then (p, [])
  else (Protocol random (channel_stopped_ p), [send_ping_message random]).

(** [protocol_ping_60001::handle_receive_pong]; the subscription code [ec]
    is a stop code when it is set. *)
Definition handle_receive_pong (ec : code) (pong_nonce : Z) (p : protocol)
  : protocol * list effect :=
  if stopped p || to_bool_code ec then (p, [])
  else if negb (pong_nonce =? nonce_ p) then do_stop protocol_violation p
  else (Protocol received (channel_stopped_ p), []).

(** [protocol_ping_60001::handle_timer] *)
Definition handle_timer (ec : code) (random : Z) (p : protocol)
  : protocol * list effect :=
  if stopped p then (p, [])
  else if to_bool_code ec then do_stop ec p
  else if negb (nonce_ p =? received) then do_stop ec p
  else send_ping random p.

End Ping60001.

(** ** The supervisor: subscription keys and the run sequence (p2p.cpp) *)

Module P2PSequence.

(** [p2p::create_key]: [if (is_zero(++keys_)) { log } return keys_;].  The
    result is the returned key and the new [keys_]. *)
Definition create_key (keys_ : Z) : Z * Z :=
  let k := add1 keys_ in (k, k).

(** [n] successive calls, as [do_subscribe_connect] and [do_subscribe_close]
    make them on the strand. *)
Fixpoint create_keys (n : nat) (keys_ : Z) : list Z * Z :=
  match n with
  | O => ([], keys_)
  | S n' =>
      let (k, keys1) := create_key keys_ in
      let (ks, keys2) := create_keys n' keys1 in
      (k :: ks, keys2)
  end.

(** What a session's [start] completes with: [error::bypassed], or one of
    the codes above. *)
Inductive start_code : Type :=
  | bypassed
  | coded (ec : code).

(** [if (ec)] on such a code. *)
Definition start_to_bool (ec : start_code) : bool :=
  match ec with
  | bypassed => true
  | coded c => to_bool_code c
  end.

Definition is_bypassed (ec : start_code) : bool :=
  match ec with bypassed => true | coded _ => false end.

Definition endpoint : Type := (Z * Z)%type.

Inductive effect : Type :=
  | handler (ec : start_code)          (* the caller's result_handler *)
  | do_connect (peer : endpoint)
  | start_inbound                      (* attach_inbound_session()->start *)
  | start_outbound                     (* attach_outbound_session()->start *)
  | start_hosts_called
  | start_seed.                        (* attach_seed_session()->start *)

(** The lambda given to the seed and outbound sessions:
    [handler(ec == error::bypassed ? error::success : ec)]. *)
Definition handle_bypassable (ec : start_code) : list effect :=
  [handler (if is_bypassed ec then coded success else ec)].

(** [p2p::do_run] *)
Definition do_run (closed : bool) (peers : list endpoint) : list effect :=
  if closed then [handler (coded service_stopped)]
  else map do_connect peers ++ [start_inbound].

(** [p2p::handle_run] *)
Definition handle_run (ec : start_code) : list effect :=
  if start_to_bool ec && negb (is_bypassed ec) then [handler ec]
  else [start_outbound].

(** [p2p::run] to its completion: [closed] is read by [run] and again, as
    [closed_later], by [do_run]; [inbound] and [outbound] are what the two
    sessions complete their [start] with, when they are started. *)
Definition run_sequence (closed closed_later : bool) (peers : list endpoint)
    (inbound outbound : start_code) : list effect :=
  if closed then [handler (coded service_stopped)]
  else
    do_run closed_later peers ++
    (if closed_later then []
     else
       handle_run inbound ++
       (if start_to_bool inbound && negb (is_bypassed inbound) then []
        else handle_bypassable outbound)).

(** [p2p::handle_start]: [manual] is what the manual session's start
    completes with, [hosts] the result of [start_hosts()], [seed] what the
    seed session's start completes with. *)
Definition handle_start (manual : start_code) (hosts : code)
    (seed : start_code) : list effect :=
  if start_to_bool manual then [handler manual]
  else if to_bool_code hosts then [start_hosts_called; handler (coded hosts)]
  else start_hosts_called :: start_seed :: handle_bypassable seed.

Definition handler_codes (log : list effect) : list start_code :=
  flat_map (fun e => match e with handler ec => [ec] | _ => [] end) log.

(** The inbound (or seed) result lets the sequence continue. *)
Definition continues (ec : start_code) : Prop :=
  ec = bypassed \/ ec = coded success.

End P2PSequence.

(** ** Settings: limits derived from the configuration (settings.cpp) *)

Module SettingsLimits.

(** [system::safe_multiply<size_t>]: the product, or an overflow exception
    ([None]) when it does not fit. *)
Definition safe_multiply (a b : Z) : option Z :=
  if a * b <=? size_max then Some (a * b) else None.

(** [settings::minimum_address_count] *)
Definition minimum_address_count (connect_batch_size outbound_connections : Z)
  : option Z :=
  safe_multiply connect_batch_size outbound_connections.

(** A [uint16_t] value. *)
Definition is_uint16 (x : Z) : Prop := 0 <= x < 2 ^ 16.

(** [settings::outbound_enabled] *)
Definition outbound_enabled
    (outbound_connections host_pool_capacity connect_batch_size : Z) : bool :=
  Settings.to_bool outbound_connections
  && Settings.to_bool host_pool_capacity
  && Settings.to_bool connect_batch_size.

End SettingsLimits.

(** ** Outbound session: start and the connect cycle
       (session_outbound.cpp) *)

Module SessionOutboundCycle.

Definition connector_id : Type := nat.
Definition authority : Type := (Z * Z)%type.

Inductive effect : Type :=
  | handler (ec : code)                 (* the result_handler of start *)
  | session_start                       (* session::start *)
  | create_connector (c : connector_id)
  | store_connector (c : connector_id)
  | fetch (c : connector_id)            (* fetch(start_batch ... connector) *)
  | batch_handler (ec : code)           (* handler(ec, nullptr) *)
  | connector_connect (c : connector_id) (host : authority).

(** [session_outbound::start] *)
Definition start (outbound_connections : nat) : list effect :=
  match outbound_connections with
  | O => [handler success]
  | S _ => [session_start]
  end.


(** [session_outbound::batch], reached through [start_connect]: one [fetch]
    per connector. *)
Definition start_connect (stopped : bool) (connectors : list connector_id)
  : list effect :=
  if stopped then [] else map fetch connectors.



(** [session_outbound::start_batch]; [stopped] is [session::stopped(ec)]
    and [blacklisted] the session's filter. *)
Definition start_batch (stopped : bool) (blacklisted : authority -> bool)
    (ec : code) (host : authority) (c : connector_id) : list effect :=
  if stopped then [batch_handler service_stopped]
  else if to_bool_code ec then [batch_handler ec]
  else if blacklisted host then [batch_handler address_blocked]
  else [connector_connect c host].



End SessionOutboundCycle.

(** ** Manual session: reading the log *)

Module SessionManualLog.
Import SessionManual.

(** A connect attempt or a channel start. *)
Definition is_attempt (e : effect) : bool :=
  match e with
  | connector_connect _ | start_channel _ => true
  | _ => false
  end.

(** One failed attempt and the expiry of the retry timer it arms. *)
Definition failed_attempt (ec : code) : list event :=
  [connect_done ec None; timer_fired].

Fixpoint failed_attempts (n : nat) (ec : code) : list event :=
  match n with
  | O => []
  | S n' => failed_attempt ec ++ failed_attempts n' ec
  end.

Fixpoint retries (n : nat) (host : authority) : list effect :=
  match n with
  | O => []
  | S n' => timer_start :: connector_connect host :: retries n' host
  end.

End SessionManualLog.

(** ** Distributor: stop (pump.cpp) *)

Module PumpStop.
Import Distributor.

(** The subscribers in the order of the [STOP_SUBSCRIBER] lines of
    [pump::stop]. *)
Definition stop_order : list identifier :=
  [address; alert; block; block_transactions; compact_block;
   compact_filter; compact_filter_checkpoint; compact_filter_headers;
   fee_filter; filter_add; filter_clear; filter_load; get_address;
   get_blocks; get_block_transactions; get_compact_filter_checkpoint;
   get_compact_filter_headers; get_compact_filters; get_data;
   get_headers; headers; inventory; memory_pool; merkle_block;
   not_found; ping; pong; reject; send_compact; send_headers;
   transaction; verack; version].

#[global] Instance identifier_eq_dec : EqDecision identifier.
Proof. solve_decision. Defined.

Section Stop.

Variable message : Type.

(** Modelled from the spec: [subscriber->stop(ec, nullptr)] fans the stop
    code out to every handler, with no message. *)
Definition subscriber_stop (sub : subscriber message) (ec : code)
  : list (effect message) :=
  map (fun h : handler message => notified message ec None (h ec None)) sub.

(** [pump::stop] *)
Definition stop (subs : subscribers message) (ec : code)
  : list (effect message) :=
  flat_map (fun id => subscriber_stop (subs id) ec) stop_order.

End Stop.

End PumpStop.

(** ** Ping protocol: a channel's life as a sequence of events *)

Module Ping60001Run.
Import Ping60001.

Inductive event : Type :=
  | heartbeat (ec : code) (random : Z)      (* handle_timer *)
  | pong_received (ec : code) (nonce : Z).  (* handle_receive_pong *)

Definition step (e : event) (p : protocol) : protocol * list effect :=
  match e with
  | heartbeat ec random => handle_timer ec random p
  | pong_received ec nonce => handle_receive_pong ec nonce p
  end.

Fixpoint run (es : list event) (p : protocol) : protocol * list effect :=
  match es with
  | [] => (p, [])
  | e :: es' =>
      let (p1, out1) := step e p in
      let (p2, out2) := run es' p1 in
      (p2, out1 ++ out2)
  end.

(** A heartbeat that sends [ping{nonce}] and the matching pong. *)
Definition exchange (nonce : Z) : list event :=
  [heartbeat success nonce; pong_received success nonce].

Definition is_stop (e : effect) : bool :=
  match e with stop _ => true | send_ping_message _ => false end.

End Ping60001Run.

(** ** Event protocols: the handler latch (protocol_events.cpp) *)

Module ProtocolEvents.

Record protocol_events : Type := Events {
  handler_ : bool       (* handler_ holds the event handler *)
}.

(** [protocol_events::stopped] *)
Definition stopped (p : protocol_events) : bool := negb (handler_ p).

(** [protocol_events::start]: [handler_.store(handler)]; [handler] tells
    whether the [event_handler] passed in holds a function. *)
Definition start (handler : bool) (p : protocol_events) : protocol_events :=
  Events handler.




End ProtocolEvents.

(** ** Connector: reading the invocations *)

Module ConnectorLog.
Import Connector.

(** How many more invocations a connector can make: one while the resolve
    has not been handed to [handle_resolve], one while [stopped_] is
    clear. *)
Definition budget (c : connector) : nat :=
  (match resolver_ c with resolve_idle => 0 | _ => 1 end
   + if stopped_ c then 0 else 1)%nat.

(** A channel comes with [success]. *)
Definition well_reported (e : effect) : Prop :=
  match e with handler ec created => created = true -> ec = success end.

End ConnectorLog.

(** ** Outbound batch: the completions of a whole session *)

Module SessionOutboundRound.
Import SessionOutbound.

(** A completion as [handle_batch] receives it: the code, the channel and
    the connectors of the batch the completing connector belongs to.  The
    batches of a session share its [count_]. *)
Definition completion : Type :=
  (code * option channel * list connector_id)%type.

(** The completions of the connectors of a session, of whichever batch, in
    strand order. *)
Fixpoint run_completions (cs : list completion) (s : session_outbound)
  : session_outbound * list effect :=
  match cs with
  | [] => (s, [])
  | (ec, ch, connectors) :: rest =>
      let (s1, out1) := handle_batch ec ch connectors s in
      let (s2, out2) := run_completions rest s1 in
      (s2, out1 ++ out2)
  end.

(** Every completion of the list carries an error. *)
Definition all_failed (cs : list completion) : Prop :=
  Forall (fun c : completion => fst (fst c) <> success) cs.

(** What a completion gives rise to once a connector has succeeded: nothing
    for a failure; for a completion without error, the stop of the
    connectors of its batch and its channel with [success]. *)
Definition delivered (c : completion) : list effect :=
  match c with
  | (ec, ch, connectors) =>
      if to_bool_code ec then []
      else map connector_stop connectors ++ [complete success ch]
  end.

End SessionOutboundRound.

(** * Properties *)

(** ** Codes and machine integers *)

Lemma to_bool_code_false (ec : code) : to_bool_code ec = false <-> ec = success.
Proof. destruct ec; cbn; split; congruence. Qed.

Lemma to_bool_code_true (ec : code) : to_bool_code ec = true <-> ec <> success.
Proof. destruct ec; cbn; split; congruence. Qed.

Lemma is_zero_true (x : Z) : is_zero x = true <-> x = 0.
Proof. unfold is_zero. apply Z.eqb_eq. Qed.

Lemma is_zero_false (x : Z) : is_zero x = false <-> x <> 0.
Proof. unfold is_zero. apply Z.eqb_neq. Qed.

Lemma add1_small (x : Z) : in_size x -> x <> size_max -> add1 x = x + 1.
Proof.
  unfold in_size, add1, wrap, size_max. intros Hx Hne.
  apply Z.mod_small. lia.
Qed.

Lemma add1_overflow (x : Z) :
  in_size x -> is_zero (add1 x) = true <-> x = size_max.
Proof.
  intros Hx. rewrite is_zero_true. split.
  - intros H. destruct (Z.eq_dec x size_max) as [|Hne]; [assumption|].
    rewrite add1_small in H by assumption. unfold in_size in Hx. lia.
  - intros ->. reflexivity.
Qed.

Lemma add1_no_overflow (x : Z) :
  in_size x -> is_zero (add1 x) = false <-> x <> size_max.
Proof.
  intros Hx. rewrite <- (add1_overflow x Hx).
  destruct (is_zero (add1 x)); split; congruence.
Qed.

Lemma sub1_small (x : Z) : in_size x -> x <> 0 -> sub1 x = x - 1.
Proof.
  unfold in_size, sub1, wrap, size_max. intros Hx Hne.
  apply Z.mod_small. lia.
Qed.

Lemma add1_in_size (x : Z) : in_size (add1 x).
Proof.
  unfold in_size, add1, wrap, size_max.
  pose proof (Z.mod_pos_bound (x + 1) (2 ^ 64)). lia.
Qed.

Lemma sub1_in_size (x : Z) : in_size (sub1 x).
Proof.
  unfold in_size, sub1, wrap, size_max.
  pose proof (Z.mod_pos_bound (x - 1) (2 ^ 64)). lia.
Qed.

(** ** The supervisor *)

Module P2PFacts.
Import P2P.

(** *** Reading the state after the setters *)

Lemma closed_set_hosts h s : closed (set_hosts h s) = closed s.
Proof. reflexivity. Qed.

Lemma hosts_reserve_true a h :
  fst (hosts_reserve a h) = true <-> a ∉ h.
Proof.
  unfold hosts_reserve. destruct (decide (a ∈ h)); cbn.
  - split; [discriminate | contradiction].
  - split; [intros _; assumption | reflexivity].
Qed.

Lemma hosts_reserve_new a h :
  a ∉ h -> hosts_reserve a h = (true, {[a]} ∪ h).
Proof.
  intros Ha. unfold hosts_reserve.
  destruct (decide (a ∈ h)); [contradiction | reflexivity].
Qed.

Lemma hosts_reserve_duplicate a h :
  a ∈ h -> hosts_reserve a h = (false, h).
Proof.
  intros Ha. unfold hosts_reserve.
  destruct (decide (a ∈ h)); [reflexivity | contradiction].
Qed.

Lemma hosts_unreserve_gone a h : a ∉ hosts_unreserve a h.
Proof.
  unfold hosts_unreserve. rewrite elem_of_difference, elem_of_singleton.
  intros [_ Hne]. apply Hne. reflexivity.
Qed.

(** *** Loopback *)

Lemma is_loopback_true ch s :
  is_loopback ch s = true <->
  enable_loopback s = false /\ inbound ch = true /\ peer_nonce ch ∈ nonces_ s.
Proof.
  unfold is_loopback.
  destruct (enable_loopback s), (inbound ch); cbn;
    try (split; [discriminate | intros (? & ? & ?); discriminate]).
  rewrite bool_decide_eq_true. tauto.
Qed.

Lemma store_nonce_skipped ch s :
  enable_loopback s = true \/ inbound ch = true -> store_nonce ch s = (true, s).
Proof.
  unfold store_nonce. intros [-> | ->]; [reflexivity|].
  rewrite orb_true_r. reflexivity.
Qed.

Lemma is_loopback_skipped ch s :
  enable_loopback s = true \/ inbound ch = false -> is_loopback ch s = false.
Proof.
  unfold is_loopback. intros [-> | ->]; [reflexivity|].
  rewrite orb_true_r. reflexivity.
Qed.

Lemma store_nonce_stored ch s :
  enable_loopback s = false -> inbound ch = false ->
  nonce ch ∈ nonces_ (snd (store_nonce ch s)).
Proof.
  intros Hl Hi. unfold store_nonce. rewrite Hl, Hi. cbn.
  destruct (decide (nonce ch ∈ nonces_ s)); cbn; [assumption|].
  set_solver.
Qed.

Lemma store_nonce_keeps_flags ch s :
  enable_loopback (snd (store_nonce ch s)) = enable_loopback s
  /\ closed (snd (store_nonce ch s)) = closed s.
Proof.
  unfold store_nonce.
  destruct (enable_loopback s || inbound ch); [split; reflexivity|].
  destruct (decide (nonce ch ∈ nonces_ s)); split; reflexivity.
Qed.

Lemma count_channel_loopback ch s :
  closed s = false -> is_loopback ch s = true ->
  count_channel ch s = (accept_failed, s).
Proof. intros Hc Hl. unfold count_channel. rewrite Hc, Hl. reflexivity. Qed.

(** C2, as stated, fails: an outbound channel that receives a nonce stored by
    another outbound channel is counted with [success], and an inbound
    channel does take part in the lookup. *)
Lemma outbound_echo_is_counted :
  let s0 := Supervisor false false ∅ ∅ 0 0 in
  let owner := Channel false false 7 0 (1, 8333) in
  let echo := Channel false false 9 7 (2, 8333) in
  let accepted := Channel true false 11 7 (3, 8333) in
  let s1 := snd (store_nonce owner s0) in
  fst (store_nonce owner s0) = true
  /\ inbound echo = false
  /\ peer_nonce echo = nonce owner
  /\ enable_loopback s1 = false
  /\ fst (count_channel echo s1) = success
  /\ fst (count_channel echo s1) <> accept_failed
  /\ is_loopback accepted s1 = true.
Proof. vm_compute. repeat split; congruence. Qed.

(** C2, amended: with [enable_loopback] off and the network not closed, an
    inbound channel whose received version nonce was stored by an outbound
    channel of this process is refused by [count_channel] with
    [accept_failed], nothing is counted or reserved, and the channel is
    stopped.  Every inbound channel skips the insert, every outbound channel
    the lookup, and every channel both when [enable_loopback] is set. *)
Theorem loopback_rejects_inbound_echo (owner ch : channel) (s : p2p) :
  enable_loopback s = false ->
  closed s = false ->
  inbound owner = false ->
  inbound ch = true ->
  peer_nonce ch = nonce owner ->
  let s' := snd (store_nonce owner s) in
  count_channel ch s' = (accept_failed, s')
  /\ register_channel ch s' = (s', [channel_stop accept_failed])
  /\ store_nonce ch s' = (true, s')
  /\ is_loopback owner s' = false
  /\ (forall c t, inbound c = true -> store_nonce c t = (true, t))
  /\ (forall c t, inbound c = false -> is_loopback c t = false)
  /\ (forall c t, enable_loopback t = true ->
        store_nonce c t = (true, t) /\ is_loopback c t = false).
Proof.
  intros Hl Hc Ho Hi Hn s'.
  destruct (store_nonce_keeps_flags owner s) as [Hl' Hc'].
  fold s' in Hl', Hc'.
  assert (E : count_channel ch s' = (accept_failed, s')).
  { apply count_channel_loopback; [congruence|].
    apply is_loopback_true. split; [congruence|]. split; [assumption|].
    rewrite Hn. subst s'. apply store_nonce_stored; assumption. }
  split; [exact E|].
  split; [unfold register_channel; rewrite E; reflexivity|].
  split; [apply store_nonce_skipped; right; assumption|].
  split; [apply is_loopback_skipped; right; assumption|].
  split; [intros c t Hin; apply store_nonce_skipped; right; assumption|].
  split; [intros c t Hin; apply is_loopback_skipped; right; assumption|].
  intros c t Ht. split.
  - apply store_nonce_skipped. left. assumption.
  - apply is_loopback_skipped. left. assumption.
Qed.

Lemma loopback_rejects_inbound_echo_witness :
  let s0 := Supervisor false false ∅ ∅ 0 0 in
  let owner := Channel false false 7 0 (1, 8333) in
  let ch := Channel true false 11 7 (3, 8333) in
  count_channel ch (snd (store_nonce owner s0))
    = (accept_failed, snd (store_nonce owner s0))
  /\ register_channel ch (snd (store_nonce owner s0))
     = (snd (store_nonce owner s0), [channel_stop accept_failed]).
Proof.
  intros s0 owner ch.
  split; apply (loopback_rejects_inbound_echo owner ch s0); reflexivity.
Defined.

(** *** Counting *)

Lemma admissible_dec ch s : admissible ch s \/ ~ admissible ch s.
Proof.
  unfold admissible.
  destruct (closed s); [right; intros (? & _); discriminate|].
  destruct (is_loopback ch s); [right; intros (_ & ? & _); discriminate|].
  destruct (decide (channel_authority ch ∈ hosts_ s)) as [Hr | Hr];
    [right; intros (_ & _ & _ & _ & ?); contradiction|].
  destruct (inbound ch) eqn:Hi, (quiet ch) eqn:Hq;
    destruct (Z.eq_dec (inbound_channel_count_ s) size_max) as [Ei | Ei];
    destruct (Z.eq_dec (total_channel_count_ s) size_max) as [Et | Et];
    try (left; repeat split; intros; (assumption || discriminate));
    right; intros (_ & _ & Hgi & Hgt & _);
    solve [ apply Hgi; [reflexivity | assumption]
          | apply Hgt; [reflexivity | assumption] ].
Qed.

Lemma inbound_guard ch s :
  in_size (inbound_channel_count_ s) ->
  inbound ch && is_zero (add1 (inbound_channel_count_ s)) = false <->
  (inbound ch = true -> inbound_channel_count_ s <> size_max).
Proof.
  intros Hs. destruct (inbound ch); cbn.
  - rewrite add1_no_overflow by assumption. tauto.
  - split; [discriminate | reflexivity].
Qed.

Lemma total_guard ch s :
  in_size (total_channel_count_ s) ->
  negb (quiet ch) && is_zero (add1 (total_channel_count_ s)) = false <->
  (quiet ch = false -> total_channel_count_ s <> size_max).
Proof.
  intros Hs. destruct (quiet ch); cbn.
  - split; [discriminate | reflexivity].
  - rewrite add1_no_overflow by assumption. tauto.
Qed.

Lemma count_channel_admissible ch s :
  counters_ok s -> admissible ch s ->
  count_channel ch s =
    (success,
     Supervisor (enable_loopback s) (closed_ s) (nonces_ s)
       ({[channel_authority ch]} ∪ hosts_ s)
       (if inbound ch then inbound_channel_count_ s + 1
        else inbound_channel_count_ s)
       (if quiet ch then total_channel_count_ s
        else total_channel_count_ s + 1)).
Proof.
  intros [Hi Ht] (Hc & Hl & Hgi & Hgt & Hr).
  unfold count_channel. rewrite Hc, Hl.
  rewrite (proj2 (inbound_guard ch s Hi) Hgi).
  rewrite (proj2 (total_guard ch s Ht) Hgt).
  rewrite (hosts_reserve_new _ _ Hr). cbn.
  unfold set_counts, set_hosts. cbn. f_equal. f_equal.
  - destruct (inbound ch); [|reflexivity].
    apply add1_small; [assumption | apply Hgi; reflexivity].
  - destruct (quiet ch); [reflexivity|]. cbn.
    apply add1_small; [assumption | apply Hgt; reflexivity].
Qed.

Lemma set_hosts_same s : set_hosts (hosts_ s) s = s.
Proof. destruct s; reflexivity. Qed.

Lemma count_channel_refused ch s :
  counters_ok s -> ~ admissible ch s ->
  exists ec h,
    count_channel ch s = (ec, set_hosts h s)
    /\ h = hosts_ s
    /\ (ec = service_stopped \/ ec = accept_failed
        \/ ec = channel_overflow \/ ec = address_in_use).
Proof.
  intros [Hi Ht] Hn. unfold count_channel.
  destruct (closed s) eqn:Hc.
  { exists service_stopped, (hosts_ s). rewrite set_hosts_same. tauto. }
  destruct (is_loopback ch s) eqn:Hl.
  { exists accept_failed, (hosts_ s). rewrite set_hosts_same. tauto. }
  destruct (inbound ch && is_zero (add1 (inbound_channel_count_ s))) eqn:Hgi.
  { exists channel_overflow, (hosts_ s). rewrite set_hosts_same. tauto. }
  destruct (negb (quiet ch) && is_zero (add1 (total_channel_count_ s))) eqn:Hgt.
  { exists channel_overflow, (hosts_ s). rewrite set_hosts_same. tauto. }
  destruct (decide (channel_authority ch ∈ hosts_ s)) as [Hr | Hr].
  { rewrite (hosts_reserve_duplicate _ _ Hr). cbn.
    exists address_in_use, (hosts_ s). tauto. }
  exfalso. apply Hn. unfold admissible.
  rewrite inbound_guard in Hgi by assumption.
  rewrite total_guard in Hgt by assumption. auto.
Qed.

Lemma count_channel_overflow ch s :
  closed s = false -> is_loopback ch s = false ->
  (inbound ch = true /\ inbound_channel_count_ s = size_max)
  \/ (quiet ch = false /\ total_channel_count_ s = size_max) ->
  count_channel ch s = (channel_overflow, s).
Proof.
  intros Hc Hl Hov. unfold count_channel. rewrite Hc, Hl.
  destruct Hov as [[Hi Hm] | [Hq Hm]].
  - rewrite Hi, Hm. reflexivity.
  - destruct (inbound ch && is_zero (add1 (inbound_channel_count_ s)));
      [reflexivity|].
    rewrite Hq, Hm. reflexivity.
Qed.

Lemma count_channel_duplicate ch s :
  counters_ok s ->
  closed s = false -> is_loopback ch s = false ->
  (inbound ch = true -> inbound_channel_count_ s <> size_max) ->
  (quiet ch = false -> total_channel_count_ s <> size_max) ->
  channel_authority ch ∈ hosts_ s ->
  count_channel ch s = (address_in_use, s).
Proof.
  intros [Hi Ht] Hc Hl Hgi Hgt Hr. unfold count_channel. rewrite Hc, Hl.
  rewrite (proj2 (inbound_guard ch s Hi) Hgi).
  rewrite (proj2 (total_guard ch s Ht) Hgt).
  rewrite (hosts_reserve_duplicate _ _ Hr). cbn.
  rewrite set_hosts_same. reflexivity.
Qed.

(** C4, as stated, fails: with the total channel count at its maximum a
    non-quiet outbound channel meets the four named conditions and is
    refused with [channel_overflow]. *)
Lemma count_channel_total_overflow :
  let s := Supervisor false false ∅ ∅ 0 size_max in
  let ch := Channel false false 7 0 (1, 8333) in
  ~ (fst (count_channel ch s) = success <-> claimed_conditions ch s).
Proof.
  intros s ch [_ H].
  assert (Hc : fst (count_channel ch s) = channel_overflow)
    by (vm_compute; reflexivity).
  rewrite Hc in H. enough (channel_overflow = success) by discriminate.
  apply H. unfold claimed_conditions. repeat split.
  - cbn. discriminate.
  - cbn. set_solver.
Qed.

(** C4, amended: [count_channel] returns [success] if and only if the network
    is not closed, the channel is not a loopback, the inbound count (for an
    inbound channel) and the total count (for a non-quiet channel) would not
    overflow, and the authority is newly reserved; it then adds one to the
    inbound count of an inbound channel and to the total count of a non-quiet
    channel.  On any failure it returns the code of the first check that
    fails: [service_stopped] when closed, [accept_failed] for a loopback,
    [channel_overflow] for a counter at its maximum, [address_in_use] for a
    reserved authority; and neither counter nor the reservations change. *)
Theorem count_channel_success_iff (ch : channel) (s : p2p) :
  counters_ok s ->
  (fst (count_channel ch s) = success <-> admissible ch s)
  /\ (admissible ch s ->
        let s' := snd (count_channel ch s) in
        inbound_channel_count_ s' =
          (if inbound ch then inbound_channel_count_ s + 1
           else inbound_channel_count_ s)
        /\ total_channel_count_ s' =
          (if quiet ch then total_channel_count_ s
           else total_channel_count_ s + 1)
        /\ hosts_ s' = {[channel_authority ch]} ∪ hosts_ s)
  /\ (~ admissible ch s ->
        let ec := fst (count_channel ch s) in
        let s' := snd (count_channel ch s) in
        (ec = service_stopped \/ ec = accept_failed
         \/ ec = channel_overflow \/ ec = address_in_use)
        /\ (closed s = true -> ec = service_stopped)
        /\ (closed s = false -> is_loopback ch s = true -> ec = accept_failed)
        /\ (closed s = false -> is_loopback ch s = false ->
            (inbound ch = true /\ inbound_channel_count_ s = size_max)
            \/ (quiet ch = false /\ total_channel_count_ s = size_max) ->
            ec = channel_overflow)
        /\ (closed s = false -> is_loopback ch s = false ->
            (inbound ch = true -> inbound_channel_count_ s <> size_max) ->
            (quiet ch = false -> total_channel_count_ s <> size_max) ->
            channel_authority ch ∈ hosts_ s ->
            ec = address_in_use)
        /\ inbound_channel_count_ s' = inbound_channel_count_ s
        /\ total_channel_count_ s' = total_channel_count_ s
        /\ hosts_ s' = hosts_ s).
Proof.
  intros Hok. split; [|split].
  - split.
    + intros Hs. destruct (admissible_dec ch s) as [Ha | Hna];
        [assumption|].
      destruct (count_channel_refused ch s Hok Hna) as (ec & h & E & _ & Hec).
      rewrite E in Hs. cbn in Hs. subst ec.
      destruct Hec as [? | [? | [? | ?]]]; discriminate.
    + intros Ha. rewrite (count_channel_admissible ch s Hok Ha). reflexivity.
  - intros Ha s'. subst s'.
    rewrite (count_channel_admissible ch s Hok Ha). cbn. auto.
  - intros Hna ec s'. subst ec s'.
    destruct (count_channel_refused ch s Hok Hna) as (ec & h & E & Hh & Hec).
    rewrite E. cbn. subst h. repeat split; try assumption.
    + intros Hc. unfold count_channel in E. rewrite Hc in E. congruence.
    + intros Hc Hl. unfold count_channel in E. rewrite Hc, Hl in E. congruence.
    + intros Hc Hl Hov.
      rewrite (count_channel_overflow ch s Hc Hl Hov) in E. congruence.
    + intros Hc Hl Hgi Hgt Hr.
      rewrite (count_channel_duplicate ch s Hok Hc Hl Hgi Hgt Hr) in E.
      congruence.
Qed.

Lemma count_channel_success_iff_witness :
  let s := Supervisor false false ∅ {[ (2, 8333) ]} 4 9 in
  let ch := Channel true false 7 0 (1, 8333) in
  fst (count_channel ch s) = success <-> admissible ch s.
Proof.
  intros s ch.
  apply (count_channel_success_iff ch s).
  split; unfold in_size, size_max; cbn; lia.
Defined.

(** *** Uncounting *)

Lemma count_channel_counters_ok ch s :
  counters_ok s -> counters_ok (snd (count_channel ch s)).
Proof.
  intros Hok. destruct (admissible_dec ch s) as [Ha | Hna].
  - rewrite (count_channel_admissible ch s Hok Ha). cbn.
    destruct Hok as [Hi Ht]. destruct Ha as (_ & _ & Hgi & Hgt & _).
    unfold counters_ok, in_size in *. cbn.
    destruct (inbound ch), (quiet ch); split;
      try specialize (Hgi eq_refl); try specialize (Hgt eq_refl); lia.
  - destruct (count_channel_refused ch s Hok Hna) as (ec & h & E & Hh & _).
    rewrite E. subst h. cbn. rewrite set_hosts_same. assumption.
Qed.

(** The shape of every case of [uncount_channel]: the authority is
    unreserved, and each counter is either kept or decremented. *)
Ltac uncount_case inbound_side total_side :=
  split; [apply hosts_unreserve_gone|];
  split; [reflexivity|];
  split; [inbound_side|];
  split; [total_side|];
  unfold counters_ok, in_size in *; cbn; lia.

Ltac kept := left; reflexivity.
Ltac decremented := right; repeat split; (assumption || reflexivity).

Lemma uncount_channel_step ch s :
  counters_ok s ->
  let s' := uncount_channel ch s in
  (channel_authority ch ∉ hosts_ s')
  /\ hosts_ s' = hosts_unreserve (channel_authority ch) (hosts_ s)
  /\ (inbound_channel_count_ s' = inbound_channel_count_ s
      \/ (inbound ch = true /\ inbound_channel_count_ s <> 0
          /\ inbound_channel_count_ s' = inbound_channel_count_ s - 1))
  /\ (total_channel_count_ s' = total_channel_count_ s
      \/ (quiet ch = false /\ total_channel_count_ s <> 0
          /\ total_channel_count_ s' = total_channel_count_ s - 1))
  /\ counters_ok s'.
Proof.
  intros [Hi Ht] s'. subst s'. unfold uncount_channel. cbn.
  destruct (inbound ch) eqn:Ei, (quiet ch) eqn:Eq; cbn.
  - (* inbound, quiet *)
    destruct (is_zero (inbound_channel_count_ s)) eqn:Zi; cbn.
    + uncount_case kept kept.
    + apply is_zero_false in Zi. rewrite (sub1_small _ Hi Zi).
      uncount_case decremented kept.
  - (* inbound, not quiet *)
    destruct (is_zero (inbound_channel_count_ s)) eqn:Zi; cbn;
      [uncount_case kept kept|].
    destruct (is_zero (total_channel_count_ s)) eqn:Zt; cbn;
      [uncount_case kept kept|].
    apply is_zero_false in Zi, Zt.
    rewrite (sub1_small _ Hi Zi), (sub1_small _ Ht Zt).
    uncount_case decremented decremented.
  - (* outbound, quiet *)
    uncount_case kept kept.
  - (* outbound, not quiet *)
    destruct (is_zero (total_channel_count_ s)) eqn:Zt; cbn.
    + uncount_case kept kept.
    + apply is_zero_false in Zt. rewrite (sub1_small _ Ht Zt).
      uncount_case kept decremented.
Qed.

Lemma apply_op_counters_ok o s : counters_ok s -> counters_ok (apply_op o s).
Proof.
  intros Hok. destruct o as [ch | ch]; cbn.
  - apply count_channel_counters_ok. assumption.
  - apply (uncount_channel_step ch s Hok).
Qed.

Lemma run_ops_counters_ok ops :
  forall s, counters_ok s -> counters_ok (run_ops ops s).
Proof.
  unfold run_ops. induction ops as [| o ops IH]; intros s Hok; cbn.
  - assumption.
  - apply IH. apply apply_op_counters_ok. assumption.
Qed.

(** C10: after any sequence of [count_channel] and [uncount_channel]
    operations, [uncount_channel] always unreserves the channel's authority;
    the inbound count changes only by a decrement of one, only when it is
    non-zero and the channel is inbound; the total count changes only by a
    decrement of one, only when it is non-zero and the channel is non-quiet;
    so both counters stay within [0, 2^64) and never wrap below zero. *)
Theorem uncount_channel_never_wraps
    (s0 : p2p) (ops : list op) (ch : channel) :
  counters_ok s0 ->
  let s := run_ops ops s0 in
  let s' := uncount_channel ch s in
  (channel_authority ch ∉ hosts_ s')
  /\ hosts_ s' = hosts_ s ∖ {[channel_authority ch]}
  /\ (inbound_channel_count_ s' <> inbound_channel_count_ s ->
        inbound ch = true /\ inbound_channel_count_ s <> 0
        /\ inbound_channel_count_ s' = inbound_channel_count_ s - 1)
  /\ (total_channel_count_ s' <> total_channel_count_ s ->
        quiet ch = false /\ total_channel_count_ s <> 0
        /\ total_channel_count_ s' = total_channel_count_ s - 1)
  /\ 0 <= inbound_channel_count_ s' <= inbound_channel_count_ s
  /\ 0 <= total_channel_count_ s' <= total_channel_count_ s.
Proof.
  intros Hok s s'.
  assert (Hs : counters_ok s) by (apply run_ops_counters_ok; assumption).
  destruct (uncount_channel_step ch s Hs) as (Hu & Hh & Hi & Ht & [Hi' Ht']).
  fold s' in Hu, Hh, Hi, Ht, Hi', Ht'.
  destruct Hs as [Hsi Hst]. unfold in_size in *.
  split; [assumption|]. split; [assumption|].
  split; [intros Hne; destruct Hi as [E | ?]; [contradiction | assumption]|].
  split; [intros Hne; destruct Ht as [E | ?]; [contradiction | assumption]|].
  split.
  - destruct Hi as [E | (_ & _ & E)]; lia.
  - destruct Ht as [E | (_ & _ & E)]; lia.
Qed.

(** The guards come before both decrements: when the total count of a
    non-quiet inbound channel is zero, the inbound count is kept as well. *)
Example uncount_channel_total_guard_keeps_inbound :
  let s := Supervisor false false ∅ ∅ 1 0 in
  let ch := Channel true false 7 0 (1, 8333) in
  inbound_channel_count_ (uncount_channel ch s) = 1
  /\ total_channel_count_ (uncount_channel ch s) = 0.
Proof. split; reflexivity. Qed.

Lemma uncount_channel_never_wraps_witness :
  let s0 := Supervisor false false ∅ ∅ 0 0 in
  let a := Channel true false 7 0 (1, 8333) in
  let b := Channel false false 9 0 (2, 8333) in
  let s := run_ops [Count a; Count b; Uncount a; Uncount a] s0 in
  0 <= inbound_channel_count_ (uncount_channel a s)
       <= inbound_channel_count_ s
  /\ 0 <= total_channel_count_ (uncount_channel a s)
       <= total_channel_count_ s.
Proof.
  intros s0 a b s.
  apply (uncount_channel_never_wraps s0
           [Count a; Count b; Uncount a; Uncount a] a).
  split; unfold in_size, size_max; cbn; lia.
Defined.

End P2PFacts.

(** ** Address filters *)

Module SettingsFacts.
Import Settings.

Section Filters.

Variable is_specified : address_item -> bool.
Variable is_v6 : Z -> bool.
Variable authority_equals : authority -> address_item -> bool.

Local Abbreviation contains := (contains authority_equals).
Local Abbreviation listed := (listed authority_equals).
Local Abbreviation disabled := (disabled is_v6).
Local Abbreviation blacklisted := (blacklisted authority_equals).
Local Abbreviation whitelisted := (whitelisted authority_equals).
Local Abbreviation peered := (peered authority_equals).
Local Abbreviation excluded := (excluded is_specified is_v6 authority_equals).

Lemma contains_listed l item : contains l item = true <-> listed l item.
Proof.
  unfold Settings.contains, Settings.listed. rewrite existsb_exists.
  reflexivity.
Qed.

Lemma whitelisted_iff s item :
  whitelisted s item = true <->
  whitelists s = [] \/ listed (whitelists s) item.
Proof.
  unfold Settings.whitelisted. rewrite orb_true_iff, contains_listed.
  destruct (whitelists s) as [| a l]; cbn.
  - split; intros _; left; reflexivity.
  - split; (intros [H | H]; [discriminate | right; assumption]).
Qed.

Lemma not_whitelisted_iff s item :
  whitelisted s item = false <->
  whitelists s <> [] /\ ~ listed (whitelists s) item.
Proof.
  pose proof (whitelisted_iff s item) as W.
  destruct (whitelisted s item).
  - split; [discriminate|]. intros [Hne Hnl].
    destruct (proj1 W eq_refl); contradiction.
  - split; [|reflexivity]. intros _. split.
    + intros Hnil. assert (false = true) by (apply W; left; assumption).
      discriminate.
    + intros Hl. assert (false = true) by (apply W; right; assumption).
      discriminate.
Qed.

Lemma peered_iff s item : peered s item = true <-> listed (friends s) item.
Proof. unfold Settings.peered. apply contains_listed. Qed.

Lemma blacklisted_iff s item :
  blacklisted s item = true <-> listed (blacklists s) item.
Proof. unfold Settings.blacklisted. apply contains_listed. Qed.

Lemma disabled_iff s item :
  disabled s item = true <-> enable_ipv6 s = false /\ is_v6 (ip item) = true.
Proof.
  unfold Settings.disabled. rewrite andb_true_iff, negb_true_iff.
  reflexivity.
Qed.

Lemma insufficient_iff s item :
  insufficient s item = true <->
  Z.land (services item) (services_minimum s) <> services_minimum s.
Proof. unfold insufficient. rewrite negb_true_iff. apply Z.eqb_neq. Qed.

Lemma unsupported_iff s item :
  unsupported s item = true <->
  Z.land (services item) (invalid_services s) <> 0.
Proof.
  unfold unsupported, to_bool. rewrite negb_true_iff. apply Z.eqb_neq.
Qed.

(** C8: [excluded(item)] holds exactly when the item is not specified, or
    disabled, or insufficient, or unsupported, or peered, or blacklisted, or
    not whitelisted; [whitelisted(item)] holds when the whitelist is empty or
    contains the item, [peered(item)] when the friends list contains it.
    The last part spells the seven cases out on the settings' fields. *)
Theorem excluded_iff (s : settings) (item : address_item) :
  (excluded s item = true <->
     is_specified item = false
     \/ disabled s item = true
     \/ insufficient s item = true
     \/ unsupported s item = true
     \/ peered s item = true
     \/ blacklisted s item = true
     \/ whitelisted s item = false)
  /\ (whitelisted s item = true <->
        whitelists s = [] \/ listed (whitelists s) item)
  /\ (peered s item = true <-> listed (friends s) item)
  /\ (excluded s item = true <->
        is_specified item = false
        \/ (enable_ipv6 s = false /\ is_v6 (ip item) = true)
        \/ Z.land (services item) (services_minimum s) <> services_minimum s
        \/ Z.land (services item) (invalid_services s) <> 0
        \/ listed (friends s) item
        \/ listed (blacklists s) item
        \/ (whitelists s <> [] /\ ~ listed (whitelists s) item)).
Proof.
  assert (E : excluded s item = true <->
     is_specified item = false
     \/ disabled s item = true
     \/ insufficient s item = true
     \/ unsupported s item = true
     \/ peered s item = true
     \/ blacklisted s item = true
     \/ whitelisted s item = false).
  { unfold Settings.excluded. rewrite !orb_true_iff, !negb_true_iff. tauto. }
  split; [exact E|]. split; [apply whitelisted_iff|].
  split; [apply peered_iff|].
  rewrite E, peered_iff, blacklisted_iff, disabled_iff, insufficient_iff,
    unsupported_iff, not_whitelisted_iff.
  reflexivity.
Qed.

End Filters.

(** The filters on a concrete configuration: a friend is excluded, an
    unlisted address with the required services is not. *)
Example excluded_friend :
  let equals (a : authority) (i : address_item) :=
    (authority_ip a =? ip i) && (authority_port a =? port i) in
  let s := Config false 1 176 [] [] [Authority 10 8333 0] in
  excluded (fun i => negb (port i =? 0)) (fun _ => false) equals s
    (AddressItem 0 1 10 8333) = true
  /\ excluded (fun i => negb (port i =? 0)) (fun _ => false) equals s
    (AddressItem 0 1 11 8333) = false
  /\ excluded (fun i => negb (port i =? 0)) (fun _ => false) equals s
    (AddressItem 0 17 11 8333) = true.
Proof. repeat split. Qed.

End SettingsFacts.

(** ** Connector *)

Module ConnectorFacts.
Import Connector.

Lemma do_handle_connect_stopped ec c :
  stopped_ c = true -> do_handle_connect ec c = (c, []).
Proof. intros H. unfold do_handle_connect. rewrite H. reflexivity. Qed.

Lemma handle_timer_stopped ec c :
  stopped_ c = true -> handle_timer ec c = (c, []).
Proof. intros H. unfold handle_timer. rewrite H. reflexivity. Qed.

(** [handle_resolve] reports a cancellation or a failure whatever
    [stopped_] holds, and leaves [stopped_] and the timer as they are. *)
Lemma handle_resolve_unguarded ec c :
  boost_to_bool ec = true ->
  exists reported,
    handle_resolve ec c = (c, [handler reported false]).
Proof.
  intros H. unfold handle_resolve.
  destruct ec; cbn in *; try discriminate; eexists; reflexivity.
Qed.

(** C1, the timer expiring while the resolve is outstanding: [handle_timer]
    reports [channel_timeout] and cancels the resolver, whose completion then
    reports [channel_stopped]; the handler of one [connect] is invoked
    twice. *)
Theorem timeout_while_resolving_invokes_twice :
  invocations [timer_expired; resolved boost_success]
    = [handler channel_timeout false; handler channel_stopped false]
  /\ length (invocations [timer_expired; resolved boost_success]) = 2%nat.
Proof. split; reflexivity. Qed.

(** The same defect on the failure path: a failed resolve is reported while
    the timer stays armed, and its expiry reports [channel_timeout]. *)
Lemma resolve_failure_then_timeout_invokes_twice :
  invocations [resolved (boost_failure resolve_failed); timer_expired]
    = [handler resolve_failed false; handler channel_timeout false].
Proof. reflexivity. Qed.

(** [stop] neither sets [stopped_] nor cancels the socket connect: a
    connector stopped while connecting still reports its channel. *)
Lemma stop_does_not_discard_connect :
  invocations [resolved boost_success; stop_called; connected success]
    = [handler success true].
Proof. reflexivity. Qed.

(** Once the resolve has succeeded the race between the socket connect and
    the timer is settled by [stopped_]: the first of the two is reported and
    the other is discarded. *)
Lemma connect_and_timer_race_once ec :
  invocations [resolved boost_success; connected ec; timer_expired]
    = [handler ec (negb (to_bool_code ec))]
  /\ invocations [resolved boost_success; timer_expired; connected ec]
    = [handler channel_timeout false].
Proof. split; destruct ec; reflexivity. Qed.

End ConnectorFacts.

(** ** Outbound batch *)

Module SessionOutboundFacts.
Import SessionOutbound.

(** A failed completion after the first success is discarded. *)
Lemma late_failure_is_discarded :
  snd (run_batch [(success, Some 1%nat); (connect_failed, None)]
         [0%nat; 1%nat; 2%nat] (create 3))
    = [connector_stop 0%nat; connector_stop 1%nat; connector_stop 2%nat;
       complete success (Some 1%nat)].
Proof. reflexivity. Qed.

(** C3, a second connector of the batch completing without error after the
    first success: [handle_batch] stops the connectors again and delivers a
    second channel to the batch completion handler with [success]. *)
Theorem second_success_completes_twice :
  snd (run_batch [(success, Some 1%nat); (success, Some 2%nat)]
         [0%nat; 1%nat; 2%nat] (create 3))
    = [connector_stop 0%nat; connector_stop 1%nat; connector_stop 2%nat;
       complete success (Some 1%nat);
       connector_stop 0%nat; connector_stop 1%nat; connector_stop 2%nat;
       complete success (Some 2%nat)]
  /\ length (filter is_complete_success
       (snd (run_batch [(success, Some 1%nat); (success, Some 2%nat)]
               [0%nat; 1%nat; 2%nat] (create 3)))) = 2%nat.
Proof. split; reflexivity. Qed.

(** Every completion without error reaches the completion handler, whatever
    the counter holds. *)
Lemma handle_batch_success_always_completes ch connectors s :
  exists s' stops,
    handle_batch success ch connectors s
      = (s', stops ++ [complete success ch]).
Proof.
  unfold handle_batch. cbn.
  destruct (add1 (count_ s) =? batch_ s); cbn.
  - exists (Session (batch_ s) (add1 (count_ s))), []. reflexivity.
  - eexists _, _. reflexivity.
Qed.

End SessionOutboundFacts.

(** ** Ping protocol *)

Module Ping60001Facts.
Import Ping60001.

Lemma handle_timer_unanswered (expected random : Z) :
  expected <> received ->
  handle_timer success random (Protocol expected false)
    = (Protocol expected true, [stop success]).
Proof.
  intros H. unfold handle_timer. cbn.
  apply Z.eqb_neq in H. rewrite H. reflexivity.
Qed.

(** C6, the heartbeat firing with the nonce of the last ping still expected:
    the channel is stopped with the timer's code, which is [success] on
    expiry, not with [channel_timeout]. *)
Theorem heartbeat_with_pending_nonce_stops_with_success :
  let p0 := create in
  let p1 := fst (handle_timer success 4242 p0) in
  nonce_ p1 = 4242
  /\ snd (handle_timer success 4242 p0) = [send_ping_message 4242]
  /\ handle_timer success 777 p1 = (Protocol 4242 true, [stop success])
  /\ snd (handle_timer success 777 p1) <> [stop channel_timeout].
Proof.
  cbn. repeat split; try reflexivity. intros H. discriminate H.
Qed.

(** With the matching pong received in between, the next heartbeat sends a
    new ping. *)
Lemma heartbeat_after_pong_sends_ping :
  let p1 := fst (handle_timer success 4242 create) in
  let p2 := fst (handle_receive_pong success 4242 p1) in
  handle_timer success 777 p2 = (Protocol 777 false, [send_ping_message 777]).
Proof. reflexivity. Qed.

End Ping60001Facts.

(** ** Manual session *)

Module SessionManualFacts.
Import SessionManual.

Lemma handler_calls_app l1 l2 :
  handler_calls (l1 ++ l2) = handler_calls l1 ++ handler_calls l2.
Proof.
  induction l1 as [| e l1 IH]; cbn; [reflexivity|].
  destruct e; cbn; rewrite IH; reflexivity.
Qed.

Lemma start_connect_calls stopped host h h' :
  handler_calls (start_connect stopped host h)
    = handler_calls (start_connect stopped host h').
Proof. unfold start_connect. destruct stopped; reflexivity. Qed.

Lemma step_calls host h h' e stopped :
  fst (step host h e stopped) = fst (step host h' e stopped)
  /\ handler_calls (snd (step host h e stopped))
     = handler_calls (snd (step host h' e stopped)).
Proof.
  destruct e; cbn; split; try reflexivity.
  - unfold handle_connect.
    destruct (code_eqb ec service_stopped); [reflexivity|].
    destruct (to_bool_code ec); [reflexivity|].
    destruct stopped; [|reflexivity]. reflexivity.
  - apply start_connect_calls.
  - apply start_connect_calls.
Qed.

Lemma run_calls host h h' es :
  forall stopped,
    handler_calls (run host h es stopped)
      = handler_calls (run host h' es stopped).
Proof.
  induction es as [| e es IH]; intros stopped; cbn; [reflexivity|].
  destruct (step_calls host h h' e stopped) as [Hs Hc].
  destruct (step host h e stopped) as [st out].
  destruct (step host h' e stopped) as [st' out'].
  cbn in Hs, Hc. subst st'.
  rewrite !handler_calls_app, Hc, (IH st). reflexivity.
Qed.

(** What the handler returns has no part in what the session does: the
    calls it receives are the same for any two handlers. *)
Lemma handler_result_is_ignored host (h h' : channel_handler) es :
  handler_calls (session host h es) = handler_calls (session host h' es).
Proof.
  unfold session. rewrite !handler_calls_app. cbn. apply run_calls.
Qed.


End SessionManualFacts.

(** ** Distributor *)

Module DistributorFacts.
Import Distributor.

(** C5, as stated, fails at the identifier [unknown]: no subscriber is
    registered for it and [notify] returns [unknown_message], not
    [success]. *)
Lemma notify_unknown_is_not_success :
  let subs : subscribers unit := fun _ => [] in
  subs unknown = []
  /\ notify unit (fun _ _ _ => Some tt) subs unknown 70015 [1; 2; 3]
     = (unknown_message, [])
  /\ fst (notify unit (fun _ _ _ => Some tt) subs unknown 70015 [1; 2; 3])
     <> success.
Proof. cbn. repeat split. intros H. discriminate H. Qed.

Section Notify.

Variable message : Type.
Variable deserialize : identifier -> Z -> list Z -> option message.

Lemma notify_known subs id version data :
  id <> unknown ->
  notify message deserialize subs id version data
    = do_notify message deserialize id (subs id) version data.
Proof. intros H. destruct id; try reflexivity. contradiction. Qed.

(** C5, amended: for every message identifier other than [unknown],
    [notify(id, version, bytes)] skips deserialization and returns [success]
    when no subscriber is registered for [id]; otherwise it deserializes the
    message with the given version, returns [invalid_message] without
    notifying anyone when that fails, and on success fans out
    [(success, message)] to all subscribers registered for the type, in
    order.  For [unknown] it returns [unknown_message] and does nothing. *)
Theorem notify_spec (subs : subscribers message) (id : identifier)
    (version : Z) (data : list Z) :
  id <> unknown ->
  (subs id = [] ->
     notify message deserialize subs id version data = (success, []))
  /\ (subs id <> [] -> deserialize id version data = None ->
        notify message deserialize subs id version data
          = (invalid_message, [deserialized message id version data]))
  /\ (subs id <> [] -> forall m, deserialize id version data = Some m ->
        notify message deserialize subs id version data
          = (success,
             deserialized message id version data ::
             map (fun h : handler message =>
                    notified message success (Some m) (h success (Some m)))
                 (subs id)))
  /\ notify message deserialize subs unknown version data
       = (unknown_message, []).
Proof.
  intros Hid. rewrite (notify_known subs id version data Hid).
  unfold do_notify, subscriber_notify.
  split; [|split; [|split]].
  - intros ->. reflexivity.
  - intros Hne Hd. destruct (subs id); [contradiction|]. cbn.
    rewrite Hd. reflexivity.
  - intros Hne m Hd. destruct (subs id) eqn:E; [contradiction|]. cbn.
    rewrite Hd. reflexivity.
  - reflexivity.
Qed.

End Notify.

Lemma notify_spec_witness :
  let h1 : handler Z := fun _ _ => true in
  let h2 : handler Z := fun _ _ => false in
  let subs : subscribers Z :=
    fun id => match id with pong => [h1; h2] | _ => [] end in
  notify Z (fun _ _ _ => None) subs ping 70015 [1] = (success, []).
Proof.
  intros h1 h2 subs.
  apply (notify_spec Z (fun _ _ _ => None) subs ping 70015 [1]).
  - discriminate.
  - reflexivity.
Defined.

End DistributorFacts.

(** ** Peer channel *)

Module ChannelPeerFacts.
Import ChannelPeer.

Lemma handle_send_failure ec :
  ec <> success -> handle_send ec = [stop ec; handler ec].
Proof.
  intros H. unfold handle_send.
  rewrite (proj2 (to_bool_code_true ec) H). reflexivity.
Qed.

Lemma handle_send_success : handle_send success = [handler success].
Proof. reflexivity. Qed.

Section Send.

Variable message : Type.
Variable serialize : message -> Z -> Z -> option (list Z).

(** C9: when serialization yields a null buffer, [send] writes nothing to the
    socket and completes with [bad_alloc]; and whenever the completion code
    is an error ([bad_alloc] or a write error) the channel is stopped with
    that code before the completion handler receives it. *)
Theorem send_failure_stops_before_handler
    (identifier negotiated_version : Z) (m : message) (written : code) :
  (serialize m identifier negotiated_version = None ->
     send message serialize identifier negotiated_version m written
       = [stop bad_alloc; handler bad_alloc]
     /\ existsb is_write
          (send message serialize identifier negotiated_version m written)
        = false)
  /\ (forall data,
        serialize m identifier negotiated_version = Some data ->
        written <> success ->
        send message serialize identifier negotiated_version m written
          = [socket_write data; stop written; handler written])
  /\ (forall data,
        serialize m identifier negotiated_version = Some data ->
        written = success ->
        send message serialize identifier negotiated_version m written
          = [socket_write data; handler success])
  /\ (forall ec, ec <> success -> handle_send ec = [stop ec; handler ec]).
Proof.
  unfold send. split; [|split; [|split]].
  - intros ->. split; reflexivity.
  - intros data -> Hw. rewrite (handle_send_failure written Hw). reflexivity.
  - intros data -> ->. reflexivity.
  - apply handle_send_failure.
Qed.

End Send.

End ChannelPeerFacts.

(** ** The supervisor: round trips and uniqueness *)

Module P2PRoundTrips.
Import P2P P2PFacts.

Lemma insert_then_remove `{Countable A} (a : A) (h : gset A) :
  a ∉ h -> ({[a]} ∪ h) ∖ {[a]} = h.
Proof.
  intros Ha. apply set_eq. intros x.
  rewrite elem_of_difference, elem_of_union, elem_of_singleton. split.
  - intros [[-> | Hx] Hne]; [contradiction Hne; reflexivity | exact Hx].
  - intros Hx. split; [right; exact Hx | intros ->; contradiction].
Qed.

Lemma reserve_then_unreserve (a : authority) (h : gset authority) :
  a ∉ h -> hosts_unreserve a ({[a]} ∪ h) = h.
Proof. unfold hosts_unreserve. apply insert_then_remove. Qed.

Lemma count_channel_success_admissible (ch : channel) (s : p2p) :
  counters_ok s ->
  fst (count_channel ch s) = success <-> admissible ch s.
Proof.
  intros Hok. split.
  - intros Hs. destruct (admissible_dec ch s) as [Ha | Hna]; [assumption|].
    destruct (count_channel_refused ch s Hok Hna) as (ec & h & E & _ & Hec).
    rewrite E in Hs. cbn in Hs. subst ec.
    destruct Hec as [? | [? | [? | ?]]]; discriminate.
  - intros Ha. rewrite (count_channel_admissible ch s Hok Ha). reflexivity.
Qed.

(** A channel that was counted with [success] is uncounted to exactly the
    state before: counters, reservations and nonces. *)
Theorem count_then_uncount (ch : channel) (s : p2p) :
  counters_ok s ->
  fst (count_channel ch s) = success ->
  uncount_channel ch (snd (count_channel ch s)) = s.
Proof.
  intros Hok Hs.
  assert (Ha : admissible ch s).
  { apply (count_channel_success_admissible ch s Hok). assumption. }
  rewrite (count_channel_admissible ch s Hok Ha). cbn.
  destruct Hok as [Hi Ht]. destruct Ha as (_ & _ & Hgi & Hgt & Hr).
  unfold uncount_channel. cbn.
  rewrite (reserve_then_unreserve _ _ Hr).
  unfold in_size in Hi, Ht.
  assert (Zi : inbound ch = true ->
               is_zero (inbound_channel_count_ s + 1) = false)
    by (intros _; apply is_zero_false; lia).
  assert (Zt : quiet ch = false ->
               is_zero (total_channel_count_ s + 1) = false)
    by (intros _; apply is_zero_false; lia).
  assert (Si : inbound ch = true ->
               sub1 (inbound_channel_count_ s + 1) = inbound_channel_count_ s).
  { intros E. specialize (Hgi E). rewrite sub1_small; unfold in_size; lia. }
  assert (St : quiet ch = false ->
               sub1 (total_channel_count_ s + 1) = total_channel_count_ s).
  { intros E. specialize (Hgt E). rewrite sub1_small; unfold in_size; lia. }
  destruct s as [l c n h i t]. cbn in *.
  destruct (inbound ch), (quiet ch); cbn;
    rewrite ?(Zi eq_refl), ?(Zt eq_refl); cbn;
    unfold set_counts, set_hosts; cbn;
    rewrite ?(Si eq_refl), ?(St eq_refl); reflexivity.
Qed.

Lemma count_then_uncount_witness :
  let s := Supervisor false false {[ 5 ]} {[ (2, 8333) ]} 4 9 in
  let ch := Channel true false 7 0 (1, 8333) in
  uncount_channel ch (snd (count_channel ch s)) = s.
Proof.
  intros s ch. apply (count_then_uncount ch s).
  - split; unfold in_size, size_max; cbn; lia.
  - vm_compute. reflexivity.
Defined.

Lemma apply_op_keeps_reserved (o : op) (s : p2p) (x : authority) :
  counters_ok s ->
  x ∈ hosts_ s ->
  (forall c, o = Uncount c -> channel_authority c <> x) ->
  x ∈ hosts_ (apply_op o s).
Proof.
  intros Hok Hx Hne. destruct o as [c | c]; cbn.
  - destruct (admissible_dec c s) as [Ha | Hna].
    + rewrite (count_channel_admissible c s Hok Ha). cbn.
      apply elem_of_union. right. assumption.
    + destruct (count_channel_refused c s Hok Hna) as (ec & h & E & Hh & _).
      rewrite E. subst h. cbn. assumption.
  - unfold uncount_channel. cbn.
    assert (Hin : x ∈ hosts_unreserve (channel_authority c) (hosts_ s)).
    { unfold hosts_unreserve. apply elem_of_difference. split; [assumption|].
      rewrite elem_of_singleton. intros ->. apply (Hne c); reflexivity. }
    destruct (inbound c && is_zero (inbound_channel_count_ s));
      [exact Hin|].
    destruct (negb (quiet c) && is_zero (total_channel_count_ s)); exact Hin.
Qed.

Lemma run_ops_keeps_reserved (ops : list op) (x : authority) :
  forall s,
    counters_ok s ->
    x ∈ hosts_ s ->
    (forall c, In (Uncount c) ops -> channel_authority c <> x) ->
    x ∈ hosts_ (run_ops ops s).
Proof.
  unfold run_ops. induction ops as [| o ops IH]; intros s Hok Hx Hne; cbn.
  - assumption.
  - apply IH.
    + apply apply_op_counters_ok. assumption.
    + apply apply_op_keeps_reserved; [assumption | assumption |].
      intros c ->. apply Hne. left. reflexivity.
    + intros c Hin. apply Hne. right. assumption.
Qed.

(** While a channel is counted no second channel with the same authority is
    counted: right after the count, and after any further counts and
    uncounts as long as no channel with that authority is uncounted, a
    channel with the same authority is refused, with [address_in_use] when it
    passes the earlier checks. *)
Theorem counted_authority_is_unique
    (a b : channel) (s : p2p) (ops : list op) :
  counters_ok s ->
  fst (count_channel a s) = success ->
  channel_authority b = channel_authority a ->
  (forall c, In (Uncount c) ops ->
     channel_authority c <> channel_authority a) ->
  let s' := run_ops ops (snd (count_channel a s)) in
  fst (count_channel b s') <> success
  /\ (closed s' = false -> is_loopback b s' = false ->
      (inbound b = true -> inbound_channel_count_ s' <> size_max) ->
      (quiet b = false -> total_channel_count_ s' <> size_max) ->
      count_channel b s' = (address_in_use, s')).
Proof.
  intros Hok Hs Hab Hops s'.
  assert (Ha : admissible a s).
  { apply (count_channel_success_admissible a s Hok). assumption. }
  assert (Hok1 : counters_ok (snd (count_channel a s)))
    by (apply count_channel_counters_ok; exact Hok).
  assert (Hok' : counters_ok s')
    by (apply run_ops_counters_ok; exact Hok1).
  assert (Hin : channel_authority b ∈ hosts_ s').
  { subst s'. rewrite Hab. apply run_ops_keeps_reserved; try assumption.
    rewrite (count_channel_admissible a s Hok Ha). cbn.
    apply elem_of_union. left. apply elem_of_singleton. reflexivity. }
  split.
  - intros Hb.
    apply (count_channel_success_admissible b s' Hok') in Hb.
    destruct Hb as (_ & _ & _ & _ & Hnot). contradiction.
  - intros Hc Hl Hgi Hgt.
    apply count_channel_duplicate; assumption.
Qed.

Lemma counted_authority_is_unique_witness :
  let s := Supervisor false false ∅ ∅ 0 0 in
  let a := Channel false false 7 0 (1, 8333) in
  let b := Channel true false 9 0 (1, 8333) in
  let c := Channel false false 11 0 (2, 8333) in
  fst (count_channel b
         (run_ops [Count c; Uncount c; Count b]
            (snd (count_channel a s)))) <> success.
Proof.
  intros s a b c.
  apply (counted_authority_is_unique a b s [Count c; Uncount c; Count b]).
  - split; unfold in_size, size_max; cbn; lia.
  - vm_compute. reflexivity.
  - reflexivity.
  - intros x [H | [H | [H | []]]]; try discriminate.
    injection H as <-. cbn. intros E. discriminate E.
Defined.

(** The nonce of an outbound channel, with [enable_loopback] off: storing a
    fresh nonce succeeds and a second store of it is refused; unstoring
    gives back the set as it was and is refused when repeated; an inbound
    channel presenting the nonce is a loopback exactly between the two. *)
Theorem store_then_unstore (ch echo : channel) (s : p2p) :
  enable_loopback s = false ->
  inbound ch = false ->
  nonce ch ∉ nonces_ s ->
  inbound echo = true ->
  peer_nonce echo = nonce ch ->
  let s1 := snd (store_nonce ch s) in
  fst (store_nonce ch s) = true
  /\ store_nonce ch s1 = (false, s1)
  /\ is_loopback echo s = false
  /\ is_loopback echo s1 = true
  /\ unstore_nonce ch s1 = (true, s)
  /\ unstore_nonce ch s = (false, s).
Proof.
  intros Hl Hi Hn He Hp s1.
  assert (E1 : store_nonce ch s = (true, set_nonces ({[nonce ch]} ∪ nonces_ s) s)).
  { unfold store_nonce. rewrite Hl, Hi. cbn.
    destruct (decide (nonce ch ∈ nonces_ s)); [contradiction | reflexivity]. }
  subst s1. rewrite E1. cbn.
  split; [reflexivity|]. split; [|split; [|split; [|split]]].
  - unfold store_nonce. cbn. rewrite Hl, Hi. cbn.
    destruct (decide (nonce ch ∈ {[nonce ch]} ∪ nonces_ s)) as [_ | Hnot];
      [reflexivity | exfalso; apply Hnot; set_solver].
  - unfold is_loopback. rewrite Hl, He, Hp. cbn.
    apply bool_decide_eq_false. assumption.
  - unfold is_loopback. cbn. rewrite Hl, He, Hp. cbn.
    apply bool_decide_eq_true. set_solver.
  - unfold unstore_nonce. cbn. rewrite Hl, Hi. cbn.
    destruct (decide (nonce ch ∈ {[nonce ch]} ∪ nonces_ s)) as [_ | Hnot];
      [| exfalso; apply Hnot; set_solver].
    f_equal. destruct s as [l c n h i t]. unfold set_nonces. cbn in *.
    f_equal. apply insert_then_remove. assumption.
  - unfold unstore_nonce. rewrite Hl, Hi. cbn.
    destruct (decide (nonce ch ∈ nonces_ s)); [contradiction | reflexivity].
Qed.

Lemma store_then_unstore_witness :
  let s := Supervisor false false {[ 5 ]} ∅ 0 0 in
  let ch := Channel false false 7 0 (1, 8333) in
  let echo := Channel true false 9 7 (2, 8333) in
  unstore_nonce ch (snd (store_nonce ch s)) = (true, s).
Proof.
  intros s ch echo. apply (store_then_unstore ch echo s); try reflexivity.
  cbn. set_solver.
Defined.

End P2PRoundTrips.

(** ** The supervisor: keys and the start and run sequences *)

Module P2PSequenceFacts.
Import P2PSequence.

Lemma create_keys_range (n : nat) :
  forall keys_,
    in_size keys_ -> keys_ + Z.of_nat n <= size_max ->
    Forall (fun k => keys_ < k <= keys_ + Z.of_nat n) (fst (create_keys n keys_))
    /\ NoDup (fst (create_keys n keys_))
    /\ snd (create_keys n keys_) = keys_ + Z.of_nat n.
Proof.
  induction n as [| n IH]; intros keys_ Hk Hn.
  - cbn. split; [constructor|]. split; [constructor | lia].
  - cbn [create_keys]. unfold create_key.
    assert (E : add1 keys_ = keys_ + 1)
      by (apply add1_small; [assumption | unfold in_size in Hk; lia]).
    rewrite E.
    assert (Hk' : in_size (keys_ + 1)) by (unfold in_size in *; lia).
    destruct (IH (keys_ + 1) Hk' ltac:(lia)) as (Hall & Hnd & Hend).
    destruct (create_keys n (keys_ + 1)) as [ks keys2]. cbn in *.
    split; [|split].
    + constructor; [lia|].
      eapply Forall_impl; [exact Hall|]. cbn. intros k Hr. lia.
    + constructor; [|assumption]. intros Hin.
      rewrite Forall_forall in Hall. apply Hall in Hin. lia.
    + lia.
Qed.

(** Subscription keys: as long as the counter does not overflow, the keys
    handed out by successive [create_key] calls are pairwise distinct, never
    zero and never one handed out before; only the call at the maximum
    yields the key zero. *)
Theorem create_key_fresh (n : nat) (keys_ : Z) :
  in_size keys_ ->
  keys_ + Z.of_nat n <= size_max ->
  NoDup (fst (create_keys n keys_))
  /\ (forall k, In k (fst (create_keys n keys_)) ->
        k <> 0 /\ keys_ < k <= keys_ + Z.of_nat n)
  /\ snd (create_keys n keys_) = keys_ + Z.of_nat n
  /\ create_key size_max = (0, 0).
Proof.
  intros Hk Hn.
  destruct (create_keys_range n keys_ Hk Hn) as (Hall & Hnd & Hend).
  split; [assumption|]. split; [|split; [assumption | reflexivity]].
  intros k Hin. rewrite Forall_forall in Hall.
  apply list_elem_of_In, Hall in Hin. unfold in_size in Hk. lia.
Qed.

Lemma create_key_fresh_witness :
  NoDup (fst (create_keys 3 41)).
Proof.
  apply (create_key_fresh 3 41); unfold in_size, size_max; cbn; lia.
Defined.

Lemma start_to_bool_false (ec : start_code) :
  start_to_bool ec = false <-> ec = coded success.
Proof.
  destruct ec as [| c]; cbn.
  - split; discriminate.
  - rewrite to_bool_code_false. split; congruence.
Qed.

Lemma handle_run_guard (ec : start_code) :
  start_to_bool ec && negb (is_bypassed ec) = false <-> continues ec.
Proof.
  unfold continues. destruct ec as [| c]; cbn.
  - split; [left; reflexivity | reflexivity].
  - rewrite andb_true_r, to_bool_code_false. split.
    + intros ->. right. reflexivity.
    + intros [H | H]; congruence.
Qed.

Lemma handle_bypassable_codes (ec : start_code) :
  handler_codes (handle_bypassable ec)
    = [if is_bypassed ec then coded success else ec].
Proof. reflexivity. Qed.

Lemma handler_codes_app l1 l2 :
  handler_codes (l1 ++ l2) = handler_codes l1 ++ handler_codes l2.
Proof. unfold handler_codes. apply flat_map_app. Qed.

Lemma handler_codes_connects peers :
  handler_codes (map do_connect peers) = [].
Proof. induction peers as [| p ps IH]; [reflexivity | exact IH]. Qed.

Lemma in_connects_app peers rest :
  In start_outbound (map do_connect peers ++ rest) <-> In start_outbound rest.
Proof.
  rewrite in_app_iff. split; [|auto].
  intros [H | H]; [|assumption].
  apply in_map_iff in H. destruct H as (p & H & _). discriminate.
Qed.

Lemma run_sequence_cases
    (closed closed_later : bool) (peers : list endpoint)
    (inbound outbound : start_code) :
  let log := run_sequence closed closed_later peers inbound outbound in
  (exists ec, handler_codes log = [coded ec])
  /\ (In start_outbound log <->
        closed = false /\ closed_later = false /\ continues inbound)
  /\ (handler_codes log = [coded success] <->
        closed = false /\ closed_later = false
        /\ continues inbound /\ continues outbound)
  /\ (closed = true \/ closed_later = true ->
        handler_codes log = [coded service_stopped])
  /\ (closed = false -> closed_later = false -> ~ continues inbound ->
        handler_codes log = [inbound]).
Proof.
  intros log. subst log. unfold run_sequence, do_run.
  destruct closed; cbn.
  { split; [eexists; reflexivity|]. split.
    - split; [intros [H | []]; discriminate | intros [H _]; discriminate].
    - split; [split; [discriminate | intros [H _]; discriminate]|].
      split; [reflexivity | discriminate]. }
  destruct closed_later; cbn.
  { split; [eexists; reflexivity|]. split.
    - split; [intros [H | []]; discriminate | intros (_ & H & _); discriminate].
    - split; [split; [discriminate | intros (_ & H & _); discriminate]|].
      split; [reflexivity | discriminate]. }
  unfold handle_run.
  rewrite <- !app_assoc.
  rewrite !handler_codes_app, handler_codes_connects.
  rewrite (in_connects_app peers).
  destruct (start_to_bool inbound && negb (is_bypassed inbound)) eqn:G.
  - assert (Hn : ~ continues inbound).
    { intros Hc. apply handle_run_guard in Hc. congruence. }
    assert (Hcoded : exists c, inbound = coded c).
    { destruct inbound as [| c]; [cbn in G; discriminate | eauto]. }
    destruct Hcoded as [c ->]. cbn.
    split; [eexists; reflexivity|].
    split; [split; [intuition discriminate | intros (_ & _ & Hc); contradiction]|].
    split.
    + split; [|intros (_ & _ & Hc & _); contradiction].
      intros H. exfalso. apply Hn. right. congruence.
    + split; [intros [H | H]; discriminate | reflexivity].
  - apply handle_run_guard in G. cbn.
    split.
    { destruct outbound as [| c]; cbn; eexists; reflexivity. }
    split; [split; auto|].
    split.
    { split.
      - intros H. repeat split; try assumption.
        destruct outbound as [| c]; [left; reflexivity|].
        right. cbn in H. congruence.
      - intros (_ & _ & _ & [-> | ->]); reflexivity. }
    split; [intros [H | H]; discriminate|].
    intros _ _ Hn. contradiction.
Qed.

Lemma run_sequence_outbound
    (peers : list endpoint) (inbound outbound : start_code) :
  continues inbound ->
  handler_codes (run_sequence false false peers inbound outbound)
    = [if is_bypassed outbound then coded success else outbound].
Proof.
  intros Hc. unfold run_sequence, do_run, handle_run. cbn.
  rewrite (proj2 (handle_run_guard inbound) Hc).
  rewrite <- !app_assoc, !handler_codes_app, handler_codes_connects.
  reflexivity.
Qed.

(** [p2p::run]: the caller's handler is invoked exactly once and never with
    [bypassed].  It receives [service_stopped] when the network is closed;
    otherwise the inbound session's code when that start fails; otherwise
    the outbound session's code, with [bypassed] turned into [success].  The
    outbound session is started only when the network is not closed and the
    inbound session started or was bypassed. *)
Theorem run_reports_once_never_bypassed
    (closed closed_later : bool) (peers : list endpoint)
    (inbound outbound : start_code) :
  let log := run_sequence closed closed_later peers inbound outbound in
  (exists ec, handler_codes log = [coded ec])
  /\ (In start_outbound log <->
        closed = false /\ closed_later = false /\ continues inbound)
  /\ (handler_codes log = [coded success] <->
        closed = false /\ closed_later = false
        /\ continues inbound /\ continues outbound)
  /\ (closed = true \/ closed_later = true ->
        handler_codes log = [coded service_stopped])
  /\ (closed = false -> closed_later = false -> ~ continues inbound ->
        handler_codes log = [inbound])
  /\ (closed = false -> closed_later = false -> continues inbound ->
        handler_codes log
          = [if is_bypassed outbound then coded success else outbound]).
Proof.
  intros log. subst log.
  destruct (run_sequence_cases closed closed_later peers inbound outbound)
    as (H1 & H2 & H3 & H4 & H5).
  repeat (split; [assumption|]).
  intros -> -> Hc. apply run_sequence_outbound. assumption.
Qed.

Lemma handle_start_cases
    (manual : start_code) (hosts : code) (seed : start_code) :
  let log := handle_start manual hosts seed in
  length (handler_codes log) = 1%nat
  /\ (In start_hosts_called log <-> manual = coded success)
  /\ (In start_seed log <-> manual = coded success /\ hosts = success)
  /\ (handler_codes log = [coded success] <->
        manual = coded success /\ hosts = success /\ continues seed)
  /\ (manual <> coded success -> handler_codes log = [manual])
  /\ (manual = coded success -> hosts <> success ->
        handler_codes log = [coded hosts]).
Proof.
  intros log. subst log. unfold handle_start.
  destruct (start_to_bool manual) eqn:M.
  - assert (Hm : manual <> coded success).
    { intros E. apply start_to_bool_false in E. congruence. }
    cbn. split; [reflexivity|].
    split; [split; [intros [H | []]; discriminate | contradiction]|].
    split; [split; [intros [H | []]; discriminate
                   | intros [? _]; contradiction]|].
    split; [split; [intros H; exfalso; apply Hm; congruence
                   | intros [? _]; contradiction]|].
    split; [reflexivity | contradiction].
  - apply start_to_bool_false in M. subst manual.
    destruct (to_bool_code hosts) eqn:H.
    + apply to_bool_code_true in H. cbn.
      split; [reflexivity|]. split; [split; auto|].
      split; [split; [intros [E | [E | []]]; discriminate
                     | intros [_ ?]; contradiction]|].
      split; [split; [intros E; exfalso; apply H; congruence
                     | intros (_ & ? & _); contradiction]|].
      split; [intros E; contradiction | reflexivity].
    + apply to_bool_code_false in H. subst hosts. cbn.
      split; [reflexivity|]. split; [split; auto|].
      split; [split; auto|].
      split.
      * split.
        -- intros E. repeat split.
           destruct seed as [| c]; [left; reflexivity|].
           right. cbn in E. congruence.
        -- intros (_ & _ & [-> | ->]); reflexivity.
      * split; [intros E; contradiction | intros _ E; contradiction].
Qed.

Lemma handle_start_seed (seed : start_code) :
  handler_codes (handle_start (coded success) success seed)
    = [if is_bypassed seed then coded success else seed].
Proof. reflexivity. Qed.

(** [p2p::start]: the caller's handler is invoked exactly once, with the
    first failure: the manual session's code when it is not [success] (the
    hosts are then not loaded), else the error of loading the hosts (the seed
    session is then not started), else the seed session's code, with
    [bypassed] turned into [success]. *)
Theorem start_reports_first_failure
    (manual : start_code) (hosts : code) (seed : start_code) :
  let log := handle_start manual hosts seed in
  length (handler_codes log) = 1%nat
  /\ (In start_hosts_called log <-> manual = coded success)
  /\ (In start_seed log <-> manual = coded success /\ hosts = success)
  /\ (handler_codes log = [coded success] <->
        manual = coded success /\ hosts = success /\ continues seed)
  /\ (manual <> coded success -> handler_codes log = [manual])
  /\ (manual = coded success -> hosts <> success ->
        handler_codes log = [coded hosts])
  /\ (manual = coded success -> hosts = success ->
        handler_codes log
          = [if is_bypassed seed then coded success else seed]).
Proof.
  intros log. subst log.
  destruct (handle_start_cases manual hosts seed)
    as (H1 & H2 & H3 & H4 & H5 & H6).
  repeat (split; [assumption|]).
  intros -> ->. apply handle_start_seed.
Qed.

End P2PSequenceFacts.

(** ** Settings: service bits and limits *)

Module SettingsBits.
Import Settings SettingsLimits.

Lemma land_covers (a m : Z) :
  Z.land a m = m <->
  forall i, 0 <= i -> Z.testbit m i = true -> Z.testbit a i = true.
Proof.
  split.
  - intros E i Hi Hm. rewrite <- E in Hm. rewrite Z.land_spec in Hm.
    apply andb_true_iff in Hm. apply Hm.
  - intros H. apply Z.bits_inj'. intros i Hi. rewrite Z.land_spec.
    destruct (Z.testbit m i) eqn:Hm.
    + rewrite (H i Hi Hm). reflexivity.
    + apply andb_false_r.
Qed.

Lemma land_disjoint (a m : Z) :
  Z.land a m = 0 <->
  forall i, 0 <= i -> Z.testbit a i = true -> Z.testbit m i = false.
Proof.
  split.
  - intros E i Hi Ha.
    assert (B : Z.testbit (Z.land a m) i = false)
      by (rewrite E; apply Z.bits_0).
    rewrite Z.land_spec, Ha in B. exact B.
  - intros H. apply Z.bits_inj'. intros i Hi.
    rewrite Z.land_spec, Z.bits_0.
    destruct (Z.testbit a i) eqn:Ha; [|reflexivity].
    rewrite (H i Hi Ha). reflexivity.
Qed.

(** The service filters, bit by bit: an item is sufficient exactly when every
    bit of [services_minimum] is set in its services, and supported exactly
    when no bit of [invalid_services] is; so with [services_minimum] zero no
    item is insufficient and with [invalid_services] zero none is
    unsupported. *)
Theorem service_filters_bitwise (s : settings) (item : address_item) :
  (insufficient s item = false <->
     forall i, 0 <= i -> Z.testbit (services_minimum s) i = true ->
               Z.testbit (services item) i = true)
  /\ (unsupported s item = false <->
        forall i, 0 <= i -> Z.testbit (services item) i = true ->
                  Z.testbit (invalid_services s) i = false)
  /\ (services_minimum s = 0 -> insufficient s item = false)
  /\ (invalid_services s = 0 -> unsupported s item = false).
Proof.
  assert (I : insufficient s item = false <->
              Z.land (services item) (services_minimum s)
                = services_minimum s).
  { unfold insufficient. rewrite negb_false_iff. apply Z.eqb_eq. }
  assert (U : unsupported s item = false <->
              Z.land (services item) (invalid_services s) = 0).
  { unfold unsupported, to_bool. rewrite negb_false_iff. apply Z.eqb_eq. }
  split; [rewrite I; apply land_covers|].
  split; [rewrite U; apply land_disjoint|].
  split.
  - intros E. apply I. rewrite E. apply Z.land_0_r.
  - intros E. apply U. rewrite E. apply Z.land_0_r.
Qed.

(** [minimum_address_count] cannot overflow: for 16-bit settings the product
    fits (it is below 2^32), and it is at least one whenever outbound
    connections are enabled. *)
Theorem minimum_address_count_fits
    (connect_batch_size outbound_connections : Z) :
  is_uint16 connect_batch_size ->
  is_uint16 outbound_connections ->
  minimum_address_count connect_batch_size outbound_connections
    = Some (connect_batch_size * outbound_connections)
  /\ 0 <= connect_batch_size * outbound_connections < 2 ^ 32
  /\ (forall host_pool_capacity,
        outbound_enabled outbound_connections host_pool_capacity
          connect_batch_size = true ->
        1 <= connect_batch_size * outbound_connections).
Proof.
  unfold is_uint16. intros Hb Ho.
  assert (R : 0 <= connect_batch_size * outbound_connections < 2 ^ 32) by nia.
  split; [|split; [exact R|]].
  - unfold minimum_address_count, safe_multiply.
    assert (L : (connect_batch_size * outbound_connections <=? size_max)
                = true)
      by (apply Z.leb_le; unfold size_max; lia).
    rewrite L. reflexivity.
  - intros h E. unfold outbound_enabled, to_bool in E.
    apply andb_true_iff in E. destruct E as [E Eb].
    apply andb_true_iff in E. destruct E as [Eo _].
    apply negb_true_iff, Z.eqb_neq in Eo, Eb. nia.
Qed.

Lemma minimum_address_count_fits_witness :
  minimum_address_count 5 10 = Some 50.
Proof.
  apply (minimum_address_count_fits 5 10); unfold is_uint16; lia.
Defined.

End SettingsBits.

(** ** Connector: bounds on the handler invocations *)

Module ConnectorBounds.
Import Connector ConnectorLog.

Lemma step_budget (e : event) (c : connector) :
  (length (snd (step e c)) + budget (fst (step e c)) <= budget c)%nat.
Proof.
  destruct c as [st rs ta sc].
  destruct e as [ec | ec | | | ec]; unfold step, budget; cbn.
  - destruct rs; cbn; [lia | |].
    + unfold handle_resolve.
      destruct (asio_is_cancelled ec); cbn; [destruct st; cbn; lia|].
      destruct (boost_to_bool ec); cbn; destruct st; cbn; lia.
    + destruct st; cbn; lia.
  - destruct sc; cbn; [|lia]. unfold do_handle_connect; cbn.
    destruct st; cbn; [lia|].
    destruct (to_bool_code ec); cbn; destruct rs; cbn; lia.
  - destruct ta; cbn; [|lia]. unfold handle_timer; cbn.
    destruct st; cbn; [lia|]. destruct rs; cbn; lia.
  - unfold stop; cbn. destruct st; cbn; [lia|]. destruct rs; cbn; lia.
  - destruct rs; cbn; [lia | |]; unfold handle_resolve;
      (destruct (asio_is_cancelled ec); cbn; [destruct st; cbn; lia|]);
      destruct (boost_to_bool ec); cbn; destruct st; cbn; lia.
Qed.

Lemma run_budget (es : list event) :
  forall c, (length (snd (run es c)) <= budget c)%nat.
Proof.
  induction es as [| e es IH]; intros c; cbn; [lia|].
  pose proof (step_budget e c) as Hs.
  destruct (step e c) as [c1 out1]. cbn in Hs.
  specialize (IH c1). destruct (run es c1) as [c2 out2]. cbn in *.
  rewrite length_app. lia.
Qed.

(** Whatever reaches the strand after a [connect], the handler is invoked at
    most twice; once the resolve has succeeded, at most once: the
    [stopped_] guard settles the race between the socket connect and the
    timer. *)
Theorem handler_invoked_at_most_twice (es : list event) :
  (length (invocations es) <= 2)%nat
  /\ (length (invocations (resolved boost_success :: es)) <= 1)%nat.
Proof.
  split.
  - unfold invocations. apply (run_budget es (connect create)).
  - unfold invocations. cbn.
    pose proof (run_budget es (Make false resolve_idle true true)) as H.
    destruct (run es (Make false resolve_idle true true)) as [c out].
    cbn in *. exact H.
Qed.

Ltac reported :=
  repeat constructor; cbn; intros; first [discriminate | reflexivity].

Lemma step_well_reported (e : event) (c : connector) :
  Forall well_reported (snd (step e c)).
Proof.
  destruct c as [st rs ta sc].
  destruct e as [bc | cc | | | bc]; unfold step; cbn.
  - destruct rs; cbn; [constructor | | reported].
    unfold handle_resolve.
    destruct (asio_is_cancelled bc); cbn; [reported|].
    destruct (boost_to_bool bc); cbn; reported.
  - destruct sc; cbn; [|constructor]. unfold do_handle_connect; cbn.
    destruct st; cbn; [constructor|].
    destruct (to_bool_code cc); cbn; reported.
  - destruct ta; cbn; [|constructor]. unfold handle_timer; cbn.
    destruct st; cbn; [constructor | reported].
  - constructor.
  - destruct rs; cbn; [constructor | |]; unfold handle_resolve;
      (destruct (asio_is_cancelled bc); cbn; [reported|]);
      destruct (boost_to_bool bc); cbn; reported.
Qed.

(** A channel is handed to the handler only together with [success]: every
    invocation that carries a channel carries that code, whatever the state
    and the events. *)
Theorem channel_only_with_success (es : list event) (c : connector) :
  Forall well_reported (snd (run es c)).
Proof.
  revert c. induction es as [| e es IH]; intros c; cbn; [constructor|].
  pose proof (step_well_reported e c) as Hs.
  destruct (step e c) as [c1 out1]. cbn in Hs.
  specialize (IH c1). destruct (run es c1) as [c2 out2]. cbn in *.
  apply Forall_app. split; assumption.
Qed.

End ConnectorBounds.

(** ** Outbound batch: the shared completion counter *)

Module SessionOutboundBatch.
Import SessionOutbound SessionOutboundRound.

Lemma handle_batch_failure ec ch connectors s :
  ec <> success ->
  handle_batch ec ch connectors s
    = (Session (batch_ s) (add1 (count_ s)),
       if add1 (count_ s) =? batch_ s then [complete connect_failed None]
       else []).
Proof.
  intros H. unfold handle_batch.
  rewrite (proj2 (to_bool_code_true ec) H). cbn.
  destruct (add1 (count_ s) =? batch_ s); reflexivity.
Qed.

(** A completion without error latches [count_] at [batch_]. *)
Lemma handle_batch_success ch connectors b c :
  0 <= c -> c < size_max ->
  handle_batch success ch connectors (Session b c)
    = (Session b b,
       (if c + 1 =? b then [] else map connector_stop connectors)
       ++ [complete success ch]).
Proof.
  intros Hc Hb. unfold handle_batch. cbn.
  assert (E : add1 c = c + 1) by (apply add1_small; unfold in_size; lia).
  rewrite E. destruct (Z.eqb_spec (c + 1) b) as [Heq | Hne]; cbn.
  - rewrite Heq. reflexivity.
  - reflexivity.
Qed.

Lemma run_completions_app l1 l2 s :
  run_completions (l1 ++ l2) s
    = (fst (run_completions l2 (fst (run_completions l1 s))),
       snd (run_completions l1 s)
       ++ snd (run_completions l2 (fst (run_completions l1 s)))).
Proof.
  revert s. induction l1 as [| [[ec ch] connectors] l1 IH]; intros s.
  - cbn. destruct (run_completions l2 s). reflexivity.
  - cbn [run_completions app].
    destruct (handle_batch ec ch connectors s) as [s1 out1]. rewrite IH.
    destruct (run_completions l1 s1) as [s2 out2]. cbn.
    rewrite app_assoc. reflexivity.
Qed.

(** Once [count_] has reached [batch_] it stays there or above: failures are
    discarded and every completion without error is delivered. *)
Lemma run_completions_latched (cs : list completion) :
  forall b c,
    1 <= b <= c -> c + Z.of_nat (length cs) <= size_max ->
    snd (run_completions cs (Session b c)) = flat_map delivered cs
    /\ b <= count_ (fst (run_completions cs (Session b c))).
Proof.
  induction cs as [| [[ec ch] connectors] rest IH]; intros b c Hb Hn.
  - cbn. split; [reflexivity | lia].
  - cbn [run_completions flat_map delivered length] in *.
    destruct (to_bool_code ec) eqn:E.
    + apply to_bool_code_true in E.
      rewrite (handle_batch_failure ec ch connectors _ E). cbn.
      assert (A : add1 c = c + 1) by (apply add1_small; unfold in_size; lia).
      rewrite A. destruct (Z.eqb_spec (c + 1) b) as [Heq | Hne]; [lia|].
      destruct (IH b (c + 1) ltac:(lia) ltac:(lia)) as [Hout Hcount].
      destruct (run_completions rest (Session b (c + 1))) as [s2 out2].
      cbn in *. split; assumption.
    + apply to_bool_code_false in E. subst ec.
      rewrite handle_batch_success by lia.
      destruct (Z.eqb_spec (c + 1) b) as [Heq | Hne]; [lia|].
      destruct (IH b b ltac:(lia) ltac:(lia)) as [Hout Hcount].
      destruct (run_completions rest (Session b b)) as [s2 out2].
      cbn [fst snd] in *. subst out2. split; [| assumption].
      rewrite <- app_assoc. reflexivity.
Qed.

Lemma delivered_failures (cs : list completion) :
  all_failed cs -> flat_map delivered cs = [].
Proof.
  induction cs as [| [[ec ch] connectors] rest IH]; intros Hf;
    [reflexivity|].
  cbn [flat_map delivered].
  pose proof (Forall_inv Hf) as Hec. cbn in Hec.
  rewrite (proj2 (to_bool_code_true ec) Hec).
  apply IH. exact (Forall_inv_tail Hf).
Qed.

Lemma run_failures_beyond (cs : list completion) b c :
  all_failed cs ->
  1 <= b <= c -> c + Z.of_nat (length cs) <= size_max ->
  fst (run_completions cs (Session b c))
    = Session b (c + Z.of_nat (length cs))
  /\ snd (run_completions cs (Session b c)) = [].
Proof.
  revert c. induction cs as [| [[ec ch] connectors] rest IH];
    intros c Hf Hb Hn.
  - cbn. rewrite Z.add_0_r. split; reflexivity.
  - pose proof (Forall_inv Hf) as Hec. cbn in Hec.
    pose proof (Forall_inv_tail Hf) as Hrest.
    cbn [run_completions length] in *.
    rewrite (handle_batch_failure ec ch connectors _ Hec). cbn.
    assert (A : add1 c = c + 1) by (apply add1_small; unfold in_size; lia).
    rewrite A. destruct (Z.eqb_spec (c + 1) b) as [Heq | Hne]; [lia|].
    destruct (IH (c + 1) Hrest ltac:(lia) ltac:(lia)) as [Hs Hout].
    destruct (run_completions rest (Session b (c + 1))) as [s2 out2].
    cbn in *. subst s2 out2. split; [|reflexivity].
    f_equal. lia.
Qed.

Lemma run_failures (cs : list completion) :
  forall b c,
    all_failed cs ->
    1 <= b -> 0 <= c < b -> c + Z.of_nat (length cs) <= size_max ->
    run_completions cs (Session b c)
      = (Session b (c + Z.of_nat (length cs)),
         if b <=? c + Z.of_nat (length cs)
         then [complete connect_failed None] else []).
Proof.
  induction cs as [| [[ec ch] connectors] rest IH]; intros b c Hf Hb Hc Hn.
  - cbn. rewrite Z.add_0_r.
    destruct (Z.leb_spec b c) as [Hle | _]; [lia | reflexivity].
  - pose proof (Forall_inv Hf) as Hec. cbn in Hec.
    pose proof (Forall_inv_tail Hf) as Hrest.
    cbn [run_completions length] in *.
    rewrite (handle_batch_failure ec ch connectors _ Hec). cbn.
    assert (A : add1 c = c + 1) by (apply add1_small; unfold in_size; lia).
    rewrite A.
    assert (L : c + Z.of_nat (S (length rest))
                = c + 1 + Z.of_nat (length rest)) by lia.
    destruct (Z.eqb_spec (c + 1) b) as [Heq | Hne].
    + (* the batch_-th failure of the session *)
      destruct (run_failures_beyond rest b (c + 1) Hrest
                  ltac:(lia) ltac:(lia)) as [Hs Hout].
      destruct (run_completions rest (Session b (c + 1))) as [s2 out2].
      cbn in *. subst s2 out2.
      destruct (Z.leb_spec b (c + Z.of_nat (S (length rest))));
        [|lia].
      rewrite L. reflexivity.
    + rewrite (IH b (c + 1) Hrest Hb) by lia. cbn. rewrite L.
      reflexivity.
Qed.

(** Failed completions are counted across the whole session, whichever
    batch they belong to: as long as no connector has succeeded,
    [connect_failed] is reported exactly when the number of failed
    completions since the construction of the session reaches [batch_], once,
    and never after. *)
Theorem failures_are_counted_session_wide
    (connect_batch_size : Z) (cs : list completion) :
  1 <= connect_batch_size ->
  Z.of_nat (length cs) <= size_max ->
  all_failed cs ->
  snd (run_completions cs (create connect_batch_size))
    = if connect_batch_size <=? Z.of_nat (length cs)
      then [complete connect_failed None] else [].
Proof.
  intros Hb Hn Hf. unfold create. rewrite Z.max_l by lia.
  destruct (Z.leb_spec connect_batch_size 0) as [Hle | _]; [lia|].
  rewrite (run_failures cs connect_batch_size 0 Hf Hb) by lia.
  cbn [snd]. rewrite Z.add_0_l. reflexivity.
Qed.

Lemma failures_are_counted_session_wide_witness :
  snd (run_completions
         [(channel_timeout, None, [0%nat; 1%nat]);
          (connect_failed, None, [2%nat; 3%nat]);
          (address_blocked, None, [0%nat; 1%nat]);
          (channel_timeout, None, [2%nat; 3%nat])]
         (create 2))
    = [complete connect_failed None].
Proof.
  apply (failures_are_counted_session_wide 2).
  - lia.
  - unfold size_max. cbn. lia.
  - repeat constructor; discriminate.
Defined.

(** The first completion without error and what follows it, for the
    completions of any batches of a session: the failures before it are
    silent (fewer than [batch_]); its channel is delivered with [success],
    and the connectors of its batch are stopped unless it is the [batch_]-th
    completion; from then on every failed completion is discarded, so
    [connect_failed] is never reported, and every further completion without
    error is delivered with [success] again, stopping the connectors of its
    batch. *)
Theorem completions_after_first_success
    (connect_batch_size : Z) (before after : list completion)
    (ch : option channel) (connectors : list connector_id) :
  1 <= connect_batch_size ->
  connect_batch_size + Z.of_nat (length after) <= size_max ->
  Z.of_nat (length before) < connect_batch_size ->
  all_failed before ->
  snd (run_completions (before ++ (success, ch, connectors) :: after)
         (create connect_batch_size))
    = (if Z.of_nat (length before) + 1 =? connect_batch_size then []
       else map connector_stop connectors)
      ++ [complete success ch]
      ++ flat_map delivered after.
Proof.
  intros Hb Hmax Hlen Hbefore. unfold create. rewrite Z.max_l by lia.
  rewrite run_completions_app. cbn [snd].
  rewrite (run_failures before connect_batch_size 0 Hbefore Hb) by lia.
  cbn [fst snd]. rewrite Z.add_0_l.
  destruct (Z.leb_spec connect_batch_size (Z.of_nat (length before)))
    as [Hle | _]; [lia|].
  cbn [app run_completions].
  rewrite handle_batch_success by lia.
  destruct (run_completions_latched after connect_batch_size
              connect_batch_size ltac:(lia) Hmax) as [Hout _].
  destruct (run_completions after
              (Session connect_batch_size connect_batch_size))
    as [s2 out2].
  cbn in *. subst out2. rewrite <- app_assoc. reflexivity.
Qed.

Lemma completions_after_first_success_witness :
  snd (run_completions
         ([(channel_timeout, None, [0%nat; 1%nat; 2%nat])]
          ++ (success, Some 7%nat, [0%nat; 1%nat; 2%nat])
             :: [(channel_stopped, None, [0%nat; 1%nat; 2%nat]);
                 (success, Some 8%nat, [3%nat; 4%nat; 5%nat])])
         (create 3))
    = map connector_stop [0%nat; 1%nat; 2%nat]
      ++ [complete success (Some 7%nat)]
      ++ map connector_stop [3%nat; 4%nat; 5%nat]
      ++ [complete success (Some 8%nat)].
Proof.
  apply (completions_after_first_success 3
           [(channel_timeout, None, [0%nat; 1%nat; 2%nat])]
           [(channel_stopped, None, [0%nat; 1%nat; 2%nat]);
            (success, Some 8%nat, [3%nat; 4%nat; 5%nat])]
           (Some 7%nat) [0%nat; 1%nat; 2%nat]).
  - lia.
  - unfold size_max. cbn. lia.
  - cbn. lia.
  - repeat constructor; discriminate.
Defined.

End SessionOutboundBatch.

(** ** Outbound session: start and the connect cycle *)

Module SessionOutboundCycleFacts.
Import SessionOutboundCycle.








End SessionOutboundCycleFacts.

(** ** Manual session: retry and stop *)

Module SessionManualRetry.
Import SessionManual SessionManualLog SessionManualFacts.

Lemma run_app host h es1 es2 :
  forall stopped,
    run host h (es1 ++ es2) stopped
      = run host h es1 stopped
        ++ run host h es2
             (fold_left (fun st e => fst (step host h e st)) es1 stopped).
Proof.
  induction es1 as [| e es1 IH]; intros stopped; [reflexivity|].
  cbn [app run fold_left].
  destruct (step host h e stopped) as [st out]. cbn [fst].
  rewrite IH, app_assoc. reflexivity.
Qed.

Lemma step_stopped host h e :
  fst (step host h e true) = true
  /\ List.filter is_attempt (snd (step host h e true)) = [].
Proof.
  destruct e; cbn; split; try reflexivity.
  unfold handle_connect.
  destruct (code_eqb ec service_stopped); [reflexivity|].
  destruct (to_bool_code ec); [reflexivity|].
  destruct ch; reflexivity.
Qed.

Lemma run_stopped host h es :
  List.filter is_attempt (run host h es true) = [].
Proof.
  induction es as [| e es IH]; [reflexivity|]. cbn [run].
  destruct (step_stopped host h e) as [Hs Hf].
  destruct (step host h e true) as [st out]. cbn in Hs, Hf. subst st.
  rewrite List.filter_app, Hf, IH. reflexivity.
Qed.

Lemma run_session_stop host h later stopped :
  run host h (session_stop :: later) stopped = run host h later true.
Proof. reflexivity. Qed.

(** Once the session is stopped no connect is attempted and no channel is
    started any more: whatever the connector, the timer and the channels
    deliver after the stop, the attempts are those made before it; and a
    [connect] on a stopped session only reports [service_stopped]. *)
Theorem no_attempt_after_stop
    (host : authority) (h : channel_handler) (es later : list event) :
  List.filter is_attempt (session host h (es ++ session_stop :: later))
    = List.filter is_attempt (session host h es)
  /\ connect true host h = [handler_called service_stopped None
                              (h service_stopped None)].
Proof.
  split; [|reflexivity].
  unfold session. rewrite run_app, !List.filter_app.
  rewrite run_session_stop, run_stopped, app_nil_r. reflexivity.
Qed.

Lemma step_reports host h e stopped :
  Forall (fun call => snd call = None -> fst call = service_stopped)
    (handler_calls (snd (step host h e stopped))).
Proof.
  destruct e; cbn.
  - unfold handle_connect.
    destruct (code_eqb ec service_stopped) eqn:E.
    + destruct ec; try discriminate. repeat constructor.
    + destruct (to_bool_code ec); [constructor|].
      destruct stopped, ch; repeat constructor.
  - unfold start_connect. destruct stopped; repeat constructor.
  - repeat constructor. cbn. discriminate.
  - unfold handle_channel_stop, start_connect.
    destruct stopped; repeat constructor.
  - constructor.
Qed.

(** A connect failure is never reported to the caller: every call of the
    handler either carries a started channel or is the final
    [service_stopped]. *)
Theorem handler_sees_channel_or_stop
    (host : authority) (h : channel_handler) (es : list event) :
  Forall (fun call => snd call = None -> fst call = service_stopped)
    (handler_calls (session host h es)).
Proof.
  unfold session. rewrite handler_calls_app. apply Forall_app. split.
  - constructor.
  - generalize false as stopped.
    induction es as [| e es IH]; intros stopped; [constructor|].
    cbn [run]. pose proof (step_reports host h e stopped) as Hs.
    destruct (step host h e stopped) as [st out]. cbn in Hs.
    rewrite handler_calls_app. apply Forall_app. split; [exact Hs | apply IH].
Qed.

Lemma failed_attempts_run host h ec n :
  ec <> success -> ec <> service_stopped ->
  run host h (failed_attempts n ec) false = retries n host.
Proof.
  intros Hs Hstop. induction n as [| n IH]; [reflexivity|].
  cbn [failed_attempts failed_attempt app run step].
  unfold handle_connect, start_connect.
  assert (E1 : code_eqb ec service_stopped = false)
    by (destruct ec; try reflexivity; contradiction).
  rewrite E1, (proj2 (to_bool_code_true ec) Hs). cbn. rewrite IH.
  reflexivity.
Qed.

Lemma retries_calls n host : handler_calls (retries n host) = [].
Proof. induction n as [| n IH]; [reflexivity | exact IH]. Qed.

Lemma retries_attempts n host :
  length (List.filter is_attempt (retries n host)) = n.
Proof.
  induction n as [| n IH]; [reflexivity|]. cbn. rewrite IH. reflexivity.
Qed.

(** The retry loop: while the connector fails with a code other than
    [service_stopped], each failure arms the retry timer and each expiry
    makes one new attempt; after [n] failures the connector has been called
    [n + 1] times and the handler not at all. *)
Theorem failed_connects_are_retried
    (host : authority) (h : channel_handler) (ec : code) (n : nat) :
  ec <> success ->
  ec <> service_stopped ->
  session host h (failed_attempts n ec)
    = subscribe_stop :: connector_connect host :: retries n host
  /\ handler_calls (session host h (failed_attempts n ec)) = []
  /\ length (List.filter is_attempt (session host h (failed_attempts n ec)))
     = S n.
Proof.
  intros Hs Hstop.
  assert (E : session host h (failed_attempts n ec)
              = subscribe_stop :: connector_connect host :: retries n host).
  { unfold session. rewrite (failed_attempts_run host h ec n Hs Hstop).
    reflexivity. }
  rewrite E. split; [reflexivity|]. cbn. split.
  - apply retries_calls.
  - f_equal. apply retries_attempts.
Qed.

Lemma failed_connects_are_retried_witness :
  session (42, 42) (fun _ _ => true) (failed_attempts 2 invalid_magic)
    = subscribe_stop :: connector_connect (42, 42) :: retries 2 (42, 42).
Proof.
  apply (failed_connects_are_retried (42, 42) (fun _ _ => true)
           invalid_magic 2); discriminate.
Defined.

End SessionManualRetry.

(** ** Distributor: stop *)

Module PumpStopFacts.
Import Distributor PumpStop.

Lemma stop_order_known (id : identifier) :
  In id stop_order <-> id <> unknown.
Proof.
  split.
  - intros H ->. cbn in H.
    repeat (destruct H as [H | H]; [discriminate|]). exact H.
  - intros H. destruct id; try contradiction; cbn;
      repeat first [left; reflexivity | right].
Qed.

Section Stop.

Variable message : Type.
Variable deserialize : identifier -> Z -> list Z -> option message.

Lemma stop_single (id : identifier) (sub : subscriber message) (ec : code) :
  id <> unknown ->
  stop message (fun i => if decide (i = id) then sub else []) ec
    = subscriber_stop message sub ec.
Proof.
  intros Hid. unfold stop.
  destruct id; try contradiction; cbn; apply app_nil_r.
Qed.

(** [pump::stop] and [pump::notify] cover the same subscribers: an
    identifier is stopped exactly when [notify] dispatches it (all but
    [unknown]), and each is stopped once: when the handlers are all on one
    message type, [stop] sends exactly the stop notifications of that
    subscriber, one for each handler in order.  So every handler registered
    for a message type receives the stop code, and nothing but stop
    notifications is sent. *)
Theorem stop_reaches_every_subscriber
    (subs : subscribers message) (ec : code) :
  (forall id, In id stop_order <->
     fst (notify message deserialize subs id 0 []) <> unknown_message)
  /\ (forall id (sub : subscriber message),
        id <> unknown ->
        stop message (fun i => if decide (i = id) then sub else []) ec
          = map (fun h : handler message =>
                   notified message ec None (h ec None)) sub)
  /\ (forall id (h : handler message),
        id <> unknown -> In h (subs id) ->
        In (notified message ec None (h ec None)) (stop message subs ec))
  /\ (forall e, In e (stop message subs ec) ->
        exists returned, e = notified message ec None returned).
Proof.
  split; [|split; [|split]].
  - intros id. rewrite stop_order_known. split.
    + intros Hid. destruct id; try contradiction; cbn; unfold do_notify;
        destruct (subscriber_empty message _); cbn;
        try destruct (deserialize _ 0 []); cbn; discriminate.
    + intros H ->. apply H. reflexivity.
  - intros id sub Hid. rewrite (stop_single id sub ec Hid). reflexivity.
  - intros id h Hid Hh. unfold stop. apply in_flat_map.
    exists id. split; [apply stop_order_known; assumption|].
    unfold subscriber_stop. apply in_map_iff. exists h. auto.
  - intros e He. unfold stop in He. apply in_flat_map in He.
    destruct He as (id & _ & He). unfold subscriber_stop in He.
    apply in_map_iff in He. destruct He as (h & <- & _). eauto.
Qed.

End Stop.

End PumpStopFacts.

(** ** Ping protocol: exchanges, violations and the end *)

Module Ping60001RunFacts.
Import Ping60001 Ping60001Run.

Lemma ping_run_app es1 es2 p :
  run (es1 ++ es2) p
    = (fst (run es2 (fst (run es1 p))),
       snd (run es1 p) ++ snd (run es2 (fst (run es1 p)))).
Proof.
  revert p. induction es1 as [| e es1 IH]; intros p.
  - cbn. destruct (run es2 p). reflexivity.
  - cbn [app run]. destruct (step e p) as [p1 out1]. rewrite IH.
    destruct (run es1 p1) as [p2 out2]. cbn. rewrite app_assoc.
    reflexivity.
Qed.

Lemma exchange_run nonce :
  run (exchange nonce) (Protocol received false)
    = (Protocol received false, [send_ping_message nonce]).
Proof.
  unfold exchange. cbn. rewrite Z.eqb_refl. reflexivity.
Qed.

(** Ping and pong: a heartbeat sends a ping and the pong with the same
    nonce clears it, so any number of answered heartbeats leaves the
    protocol running, with nothing expected, having sent one ping for each
    and stopped nothing. *)
Theorem answered_pings_keep_alive (nonces : list Z) :
  run (flat_map exchange nonces) create
    = (create, map send_ping_message nonces).
Proof.
  unfold create. induction nonces as [| n ns IH]; [reflexivity|].
  cbn [flat_map map]. rewrite ping_run_app, exchange_run. cbn [fst snd].
  rewrite IH. reflexivity.
Qed.

(** A pong that does not carry the nonce of the last ping stops the channel
    with [protocol_violation]; so does a second pong for a ping that was
    already answered. *)
Theorem unexpected_pong_is_violation (nonce other : Z) :
  other <> nonce ->
  nonce <> received ->
  run [heartbeat success nonce; pong_received success other] create
    = (Protocol nonce true,
       [send_ping_message nonce; stop protocol_violation])
  /\ run (exchange nonce ++ [pong_received success nonce]) create
    = (Protocol received true,
       [send_ping_message nonce; stop protocol_violation]).
Proof.
  intros Ho Hn. split.
  - cbn. apply Z.eqb_neq in Ho. rewrite Ho. reflexivity.
  - rewrite ping_run_app. unfold create. rewrite exchange_run. cbn.
    apply Z.eqb_neq in Hn. rewrite Hn. reflexivity.
Qed.

Lemma unexpected_pong_is_violation_witness :
  run [heartbeat success 4242; pong_received success 4243] create
    = (Protocol 4242 true,
       [send_ping_message 4242; stop protocol_violation]).
Proof.
  apply (unexpected_pong_is_violation 4242 4243); discriminate.
Defined.

Lemma ping_step_stopped e p :
  stopped p = true -> step e p = (p, []).
Proof.
  intros H. destruct e; cbn; unfold handle_timer, handle_receive_pong;
    rewrite H; reflexivity.
Qed.

Lemma ping_run_stopped es p :
  stopped p = true -> run es p = (p, []).
Proof.
  intros H. induction es as [| e es IH]; [reflexivity|].
  cbn [run]. rewrite (ping_step_stopped e p H), IH. reflexivity.
Qed.

Lemma step_cases e p :
  (exists ec, snd (step e p) = [stop ec] /\ stopped (fst (step e p)) = true)
  \/ (exists nonce, snd (step e p) = [send_ping_message nonce])
  \/ snd (step e p) = [].
Proof.
  destruct p as [n st]. destruct e as [ec r | ec k]; cbn;
    unfold handle_timer, handle_receive_pong, send_ping, do_stop, stopped;
    cbn; destruct st; cbn; auto.
  - destruct (to_bool_code ec); cbn; [left; eauto|].
    destruct (n =? received); cbn; [right; left; eauto | left; eauto].
  - destruct (to_bool_code ec); cbn; [auto|].
    destruct (k =? n); cbn; [auto | left; eauto].
Qed.

(** The effects of any sequence of heartbeats and pongs, from any state, are
    pings followed by at most one stop: the channel is stopped at most once
    and nothing is sent after it. *)
Theorem stop_is_the_last_effect (es : list event) (p : protocol) :
  exists sent,
    snd (run es p) = map send_ping_message sent
    \/ exists ec, snd (run es p) = map send_ping_message sent ++ [stop ec].
Proof.
  revert p. induction es as [| e es IH]; intros p.
  - exists []. left. reflexivity.
  - cbn [run]. pose proof (step_cases e p) as Hc.
    destruct (step e p) as [p1 out1]. cbn [fst snd] in Hc.
    destruct Hc as [(ec & -> & Hst) | [(nonce & ->) | ->]].
    + rewrite (ping_run_stopped es p1 Hst). cbn.
      exists []. right. exists ec. reflexivity.
    + destruct (IH p1) as (sent & Hs).
      destruct (run es p1) as [p2 out2]. cbn in *.
      exists (nonce :: sent). destruct Hs as [-> | (ec & ->)].
      * left. reflexivity.
      * right. exists ec. reflexivity.
    + destruct (IH p1) as (sent & Hs).
      destruct (run es p1) as [p2 out2]. cbn in *.
      exists sent. exact Hs.
Qed.

End Ping60001RunFacts.

(** ** Event protocols *)

Module ProtocolEventsFacts.
Import ProtocolEvents.






End ProtocolEventsFacts.
